(** * The storytelling chatbot's frame processors

    A shallow embedding of [StoryProcessor.process_frame] from
    [examples/storytelling-chatbot/src/processors.py], together with the part
    of Python's [re] module that the method relies on, and the properties of
    the processor that its specification states.

    Python strings are sequences of Unicode code points; a string is modelled
    as a list of code points, each a natural number, so that [len] is
    [length] and [+] is [++]. *)

From Stdlib Require Import Strings.String Strings.Ascii.
From Stdlib Require Import List NArith Bool Arith Lia.
Import ListNotations.

(* ------------------------------------------------------------------ *)
(** ** Strings *)

Definition codepoint : Type := N.
Definition str : Type := list codepoint.

(** [ord] of an ASCII character. *)
Definition ord (a : ascii) : codepoint := N_of_ascii a.

(** An ASCII string literal, as the Python string with the same characters. *)
Definition py (s : string) : str := map ord (list_ascii_of_string s).

Definition LT : codepoint := Eval cbv in ord "<".
Definition GT : codepoint := Eval cbv in ord ">".
Definition NL : codepoint := 10%N.
Definition SP : codepoint := Eval cbv in ord " ".

(** [s.replace(old, new)] for one-character [old] and [new]. *)
Definition replace (old new : codepoint) (s : str) : str :=
  map (fun c => if N.eqb c old then new else c) s.

(* ------------------------------------------------------------------ *)
(** ** The [re] module

    A backtracking matcher for the fragment of Python's regular expressions
    that the processor's five patterns are written in: literals, [.],
    character sets, [*] and [*?] over one-character items, numbered groups and
    concatenation.  Alternatives are tried in Python's order (greedy: longest
    first; lazy: shortest first), the search tries start positions from left
    to right, so the match found is the one Python finds. *)

Module re.

Inductive atom : Type :=
| Lit (c : codepoint)            (* an ordinary or escaped character *)
| Dot                            (* [.] : anything but a newline *)
| OneOf (cs : list codepoint).   (* [[...]] *)

Inductive pattern : Type :=
| Atom (a : atom)
| Star (a : atom)                (* [a*]  *)
| StarLazy (a : atom)            (* [a*?] *)
| Group (n : nat) (p : pattern)  (* [(p)], the [n]-th group *)
| Seq (p q : pattern).

(** Flags: only [re.IGNORECASE] is used. *)
Definition IGNORECASE : bool := true.
Definition NOFLAG : bool := false.

(** Simple lower-casing of a code point.  It is exact on every code point
    whose lower case is an ASCII letter: the 26 capitals, U+212A (Kelvin
    sign, lower case [k]) and U+0130 (dotted capital I, lower case [i]).
    Other cased code points are left as they are; a pattern whose letters
    are ASCII cannot tell the difference. *)
Definition lower (c : codepoint) : codepoint :=
  if ((65 <=? c) && (c <=? 90))%N then (c + 32)%N
  else if (c =? 8490)%N then 107%N
  else if (c =? 304)%N then 105%N
  else c.

Definition same_char (ic : bool) (c x : codepoint) : bool :=
  if ic then (lower x =? lower c)%N else (x =? c)%N.

Definition atom_matches (ic : bool) (a : atom) (x : codepoint) : bool :=
  match a with
  | Lit c => same_char ic c x
  | Dot => negb (x =? NL)%N
  | OneOf cs => existsb (fun c => same_char ic c x) cs
  end.

(** What a successful match leaves: the rest of the string and the groups
    captured, the most recent first. *)
Definition captures : Type := list (nat * str).
Definition found : Type := (str * captures)%type.

(** [a*]: take as many as possible, give back one at a time. *)
Fixpoint star (f : codepoint -> bool) (s : str) (k : str -> option found)
  : option found :=
  match s with
  | x :: t =>
      if f x then
        match star f t k with
        | Some r => Some r
        | None => k s
        end
      else k s
  | [] => k s
  end.

(** [a*?]: take as few as possible, one more at a time. *)
Fixpoint star_lazy (f : codepoint -> bool) (s : str) (k : str -> option found)
  : option found :=
  match k s with
  | Some r => Some r
  | None =>
      match s with
      | x :: t => if f x then star_lazy f t k else None
      | [] => None
      end
  end.

(** [matcher ic p s g k]: match [p] at the start of [s], then go on with
    [k] on what is left; [None] when every alternative fails. *)
Fixpoint matcher (ic : bool) (p : pattern) (s : str) (g : captures)
  (k : str -> captures -> option found) : option found :=
  match p with
  | Atom a =>
      match s with
      | x :: t => if atom_matches ic a x then k t g else None
      | [] => None
      end
  | Star a => star (atom_matches ic a) s (fun r => k r g)
  | StarLazy a => star_lazy (atom_matches ic a) s (fun r => k r g)
  | Group n q =>
      matcher ic q s g
        (fun r g' => k r ((n, firstn (length s - length r) s) :: g'))
  | Seq q1 q2 => matcher ic q1 s g (fun r g' => matcher ic q2 r g' k)
  end.

(** A match object: the searched string is [before ++ whole ++ after], and
    [whole] is group 0. *)
Record Match : Type := mkMatch {
  before : str;
  whole : str;
  after : str;
  groups : captures
}.

Definition shift (x : codepoint) (m : Match) : Match :=
  mkMatch (x :: before m) (whole m) (after m) (groups m).

(** Match at the start of [s]; with [must_advance] an empty match there is
    refused (the rule [re.sub] applies after an empty match). *)
Definition match_here (must_advance ic : bool) (p : pattern) (s : str)
  : option found :=
  matcher ic p s []
    (fun r g =>
       if must_advance && (length r =? length s) then None else Some (r, g)).

Fixpoint scan (must_advance ic : bool) (p : pattern) (s : str)
  : option Match :=
  match match_here must_advance ic p s with
  | Some (r, g) => Some (mkMatch [] (firstn (length s - length r) s) r g)
  | None =>
      match s with
      | [] => None
      | x :: t => option_map (shift x) (scan false ic p t)
      end
  end.

(** [re.search(pattern, string, flags)] *)
Definition search (p : pattern) (s : str) (flags : bool) : option Match :=
  scan false flags p s.

(** [m.group(n)] for [n >= 1]; [None] when the pattern has no such group. *)
Fixpoint lookup (n : nat) (g : captures) : option str :=
  match g with
  | [] => None
  | (i, v) :: g' => if Nat.eqb i n then Some v else lookup n g'
  end.

Definition group (m : Match) (n : nat) : option str :=
  match n with
  | O => Some (whole m)
  | _ => lookup n (groups m)
  end.

(** The loop of [re.sub]: replace the matches found from left to right, at
    most [count] of them when [count] is not 0; [done] counts those already
    replaced. *)
Fixpoint sub_loop (fuel : nat) (ic : bool) (p : pattern) (repl : str)
  (count done : nat) (must_advance : bool) (s : str) : str :=
  match fuel with
  | O => s
  | S fuel' =>
      if (0 <? count) && (count <=? done) then s
      else
        match scan must_advance ic p s with
        | None => s
        | Some m =>
            before m ++ repl ++
            sub_loop fuel' ic p repl count (S done)
              (length (whole m) =? 0) (after m)
        end
  end.

(** [re.sub(pattern, repl, string, count, flags)].  Every round but an
    empty match followed by a forced advance shortens the string, so
    [2 * len(string) + 2] rounds are enough. *)
Definition sub (p : pattern) (repl s : str) (count : nat) (flags : bool)
  : str :=
  sub_loop (2 * length s + 2) flags p repl count 0 false s.

End re.

(* ------------------------------------------------------------------ *)
(** ** The patterns of [process_frame] *)

Import re.

(** [r"<.*?>"] *)
Definition P_DIRECTIVE : pattern :=
  Seq (Atom (Lit LT)) (Seq (StarLazy Dot) (Atom (Lit GT))).

(** [r"<.*?>.*?>"] *)
Definition P_DIRECTIVE_CLOSED_TWICE : pattern :=
  Seq (Atom (Lit LT)) (Seq (StarLazy Dot) (Seq (Atom (Lit GT))
    (Seq (StarLazy Dot) (Atom (Lit GT))))).

(** [r"<(.*?)>"] *)
Definition P_DIRECTIVE_GROUP : pattern :=
  Seq (Atom (Lit LT)) (Seq (Group 1 (StarLazy Dot)) (Atom (Lit GT))).

(** [r"\[[bB]reak\]"] *)
Definition P_BREAK : pattern :=
  Eval cbv in
  Seq (Atom (Lit (ord "[")))
    (Seq (Atom (OneOf [ord "b"; ord "B"]))
      (Seq (Atom (Lit (ord "r"))) (Seq (Atom (Lit (ord "e")))
        (Seq (Atom (Lit (ord "a"))) (Seq (Atom (Lit (ord "k")))
          (Atom (Lit (ord "]")))))))).

(** [r".*\[[bB]reak\].*"] *)
Definition P_BREAK_ANYWHERE : pattern :=
  Seq (Star Dot) (Seq P_BREAK (Star Dot)).

(* ------------------------------------------------------------------ *)
(** ** Frames *)

(** Modelled from the spec: [CUE_USER_TURN] and [CUE_ASSISTANT_TURN] are
    imported from [prompts.py], which is not among the sources; the spec
    describes them as two fixed, opaque values, the "user's-turn" and the
    "assistant's-turn" marker. *)
Inductive Cue : Type := CUE_USER_TURN | CUE_ASSISTANT_TURN.

(** Modelled from the spec: the table [sounds] is built by [load_sounds] of
    [utils/helpers.py], which is not among the sources; the spec describes a
    fixed set of named, cached audio cues, "talking", "listening" and
    "ding". *)
Inductive Sound : Type := talking | listening | ding.

(** The frame classes the processor tells apart.  [StoryPageFrame],
    [StoryImageFrame] and [StoryPromptFrame] are the subclasses of
    [TextFrame] declared in [processors.py]; [OtherFrame] stands for every
    frame class that [process_frame] does not test for. *)
Inductive Frame : Type :=
| UserStoppedSpeakingFrame
| LLMFullResponseEndFrame
| TextFrame (text : str)
| StoryPageFrame (text : str)
| StoryImageFrame (text : str)
| StoryPromptFrame (text : str)
| DailyTransportMessageFrame (message : Cue)
| OutputAudioRawFrame (name : Sound)
| OtherFrame (kind : nat).

Definition sounds (name : Sound) : Frame := OutputAudioRawFrame name.

(** [isinstance(frame, TextFrame)], with [frame.text] when it holds. *)
Definition as_TextFrame (frame : Frame) : option str :=
  match frame with
  | TextFrame t | StoryPageFrame t | StoryImageFrame t | StoryPromptFrame t =>
      Some t
  | _ => None
  end.

(** What [push_frame] is called with: the frame object that
    [process_frame] received, or another object (a frame the method has just
    constructed, or a cached sound). *)
Inductive Pushed : Type :=
| Received (frame : Frame)
| Made (frame : Frame).

(* ------------------------------------------------------------------ *)
(** ** The processor and its effects *)

(** The attributes of [StoryProcessor] that [process_frame] uses.
    [_messages] is stored by [__init__] and never read. *)
Record StoryProcessor : Type := mkStoryProcessor {
  _text : str;
  _story : list str
}.

(** [StoryProcessor(messages, story)] *)
Definition __init__ (story : list str) : StoryProcessor :=
  mkStoryProcessor [] story.

Inductive Exception : Type :=
| AttributeError    (* [None.group] *)
| IndexError.       (* [m.group(n)] without an [n]-th group *)

Inductive Outcome (A : Type) : Type :=
| Returns (a : A)
| Raises (e : Exception).
Arguments Returns {A} a.
Arguments Raises {A} e.

(** A method body: from the processor's state to how it ends, the state it
    leaves and the frames it has pushed, in order.  A raise keeps the state
    and the frames pushed before it. *)
Definition M (A : Type) : Type :=
  StoryProcessor -> Outcome A * StoryProcessor * list Pushed.

Definition ret {A : Type} (a : A) : M A :=
  fun self => (Returns a, self, []).

Definition bind {A B : Type} (c : M A) (f : A -> M B) : M B :=
  fun self =>
    match c self with
    | (Raises e, self1, out1) => (Raises e, self1, out1)
    | (Returns a, self1, out1) =>
        match f a self1 with
        | (r, self2, out2) => (r, self2, out1 ++ out2)
        end
    end.

Declare Scope py_scope.
Delimit Scope py_scope with py.
Notation "x <- c ;; k" := (bind c (fun x => k))
  (at level 100, c at next level, right associativity) : py_scope.
Notation "c ;; k" := (bind c (fun _ => k))
  (at level 100, right associativity) : py_scope.
Open Scope py_scope.

Definition pass : M unit := ret tt.

Definition raise {A : Type} (e : Exception) : M A :=
  fun self => (Raises e, self, []).

(** [await self.push_frame(f)] *)
Definition push_frame (f : Pushed) : M unit :=
  fun self => (Returns tt, self, [f]).

(** Reading and assigning [self._text]. *)
Definition get_text : M str :=
  fun self => (Returns (_text self), self, []).

Definition set_text (t : str) : M unit :=
  fun self => (Returns tt, mkStoryProcessor t (_story self), []).

(** [self._story.append(t)] *)
Definition story_append (t : str) : M unit :=
  fun self => (Returns tt, mkStoryProcessor (_text self) (_story self ++ [t]), []).

(** An attribute access on the result of [re.search]. *)
Definition attr {A : Type} (o : option A) : M A :=
  match o with
  | Some a => ret a
  | None => raise AttributeError
  end.

(** The result of [m.group(n)]. *)
Definition item {A : Type} (o : option A) : M A :=
  match o with
  | Some a => ret a
  | None => raise IndexError
  end.

(** [if o:] on the result of [re.search]: a match object is true, [None] is
    false. *)
Definition truthy {A : Type} (o : option A) : bool :=
  match o with
  | Some _ => true
  | None => false
  end.

(** [StoryProcessor.process_frame] *)
Definition process_frame (frame : Frame) : M unit :=
  match frame with
  | UserStoppedSpeakingFrame =>
      push_frame (Made (DailyTransportMessageFrame CUE_ASSISTANT_TURN)) ;;
      push_frame (Made (sounds talking))
  | TextFrame text | StoryPageFrame text
  | StoryImageFrame text | StoryPromptFrame text =>
      t <- get_text ;;
      set_text (t ++ text) ;;
      (* IMAGE PROMPT *)
      t <- get_text ;;
      (if truthy (search P_DIRECTIVE t NOFLAG) then
         t <- get_text ;;
         (if negb (truthy (search P_DIRECTIVE_CLOSED_TWICE t NOFLAG))
          then pass else pass) ;;
         t <- get_text ;;
         m <- attr (search P_DIRECTIVE_GROUP t NOFLAG) ;;
         image_prompt <- item (group m 1) ;;
         t <- get_text ;;
         set_text (sub P_DIRECTIVE [] t 1 NOFLAG) ;;
         push_frame (Made (StoryImageFrame image_prompt))
       else pass) ;;
      (* STORY PAGE *)
      t <- get_text ;;
      (if truthy (search P_BREAK_ANYWHERE t NOFLAG) then
         t <- get_text ;;
         set_text (sub P_BREAK [] t 0 IGNORECASE) ;;
         t <- get_text ;;
         set_text (replace NL SP t) ;;
         t <- get_text ;;
         (if 2 <? length t then
            t <- get_text ;;
            story_append t ;;
            t <- get_text ;;
            push_frame (Made (StoryPageFrame t)) ;;
            push_frame (Made (DailyTransportMessageFrame CUE_ASSISTANT_TURN))
          else pass) ;;
         set_text []
       else pass)
  | LLMFullResponseEndFrame =>
      t <- get_text ;;
      push_frame (Made (StoryPromptFrame t)) ;;
      set_text [] ;;
      push_frame (Received frame) ;;
      push_frame (Made (DailyTransportMessageFrame CUE_USER_TURN)) ;;
      push_frame (Made (sounds listening))
  | _ => push_frame (Received frame)
  end.

(** The processor fed a sequence of frames, one [process_frame] call after
    the other; a raise ends the run. *)
Fixpoint run (frames : list Frame) : M unit :=
  match frames with
  | [] => ret tt
  | frame :: rest => process_frame frame ;; run rest
  end.

(** The chunks of a streamed reply, as the [TextFrame]s that carry them. *)
Definition text_frames (chunks : list str) : list Frame := map TextFrame chunks.

(* ------------------------------------------------------------------ *)
(** ** The two scans, as the specification words them

    The specification describes a text pass as a directive scan followed by a
    segment scan over the buffer.  The definitions below follow that
    description with plain list functions; the theorems of the next part
    show that [process_frame] computes exactly this. *)

(** [close_of s]: the payload and what follows it, when [s] reaches a [>]
    before the end of the line. *)
Fixpoint close_of (s : str) : option (str * str) :=
  match s with
  | [] => None
  | c :: t =>
      if (c =? GT)%N then Some ([], t)
      else if (c =? NL)%N then None
      else
        match close_of t with
        | Some (p, rest) => Some (c :: p, rest)
        | None => None
        end
  end.

(** The first [<payload>] of [s]: what precedes it, the payload, what
    follows; the leftmost [<] that is closed on its line, up to the first
    [>] after it. *)
Fixpoint first_directive (s : str) : option (str * str * str) :=
  match s with
  | [] => None
  | c :: t =>
      match (if (c =? LT)%N then close_of t else None) with
      | Some (p, rest) => Some ([], p, rest)
      | None =>
          match first_directive t with
          | Some (pre, p, rest) => Some (c :: pre, p, rest)
          | None => None
          end
      end
  end.

Fixpoint starts_with (u s : str) : bool :=
  match u, s with
  | [], _ => true
  | a :: u', b :: s' => (b =? a)%N && starts_with u' s'
  | _ :: _, [] => false
  end.

(** The markers that open a segment boundary: [[break]] and [[Break]]. *)
Definition marker_here (s : str) : bool :=
  starts_with (py "[break]") s || starts_with (py "[Break]") s.

Fixpoint has_break (s : str) : bool :=
  match s with
  | [] => false
  | _ :: t => marker_here s || has_break t
  end.

(** [u] occurs in [s]. *)
Definition substring (u s : str) : Prop := exists x y, s = x ++ u ++ y.

Definition break_marker (s : str) : Prop :=
  substring (py "[break]") s \/ substring (py "[Break]") s.


(** [s] holds a directive: a [<] closed by a [>] on the same line. *)
Definition has_directive (s : str) : Prop :=
  exists x p y, s = x ++ LT :: p ++ GT :: y /\ ~ In NL p.

(** No [<] of [s] has a [>] after it. *)
Definition unpaired (s : str) : Prop :=
  forall x y, s = x ++ LT :: y -> ~ In GT y.

(** The text of a segment: every [[break]] marker removed, whatever its
    letter case, and newlines folded to spaces. *)
Definition normalized (b : str) : str :=
  replace NL SP (sub P_BREAK [] b 0 IGNORECASE).

(** Directive scan: the buffer it leaves and the event it emits. *)
Definition directive_scan (b : str) : str * list Pushed :=
  match first_directive b with
  | Some (pre, p, post) => (pre ++ post, [Made (StoryImageFrame p)])
  | None => (b, [])
  end.

(** Segment scan: the processor it leaves and the events it emits. *)
Definition segment_scan (story : list str) (b : str)
  : StoryProcessor * list Pushed :=
  if has_break b then
    if 2 <? length (normalized b) then
      (mkStoryProcessor [] (story ++ [normalized b]),
       [Made (StoryPageFrame (normalized b));
        Made (DailyTransportMessageFrame CUE_ASSISTANT_TURN)])
    else (mkStoryProcessor [] story, [])
  else (mkStoryProcessor b story, []).

(** One text pass: append the chunk, then the two scans in order. *)
Definition text_pass (self : StoryProcessor) (chunk : str)
  : StoryProcessor * list Pushed :=
  let b := _text self ++ chunk in
  (fst (segment_scan (_story self) (fst (directive_scan b))),
   snd (directive_scan b)
     ++ snd (segment_scan (_story self) (fst (directive_scan b)))).

(** The passes over a sequence of chunks. *)
Fixpoint feed (self : StoryProcessor) (chunks : list str)
  : StoryProcessor * list Pushed :=
  match chunks with
  | [] => (self, [])
  | c :: rest =>
      (fst (feed (fst (text_pass self c)) rest),
       snd (text_pass self c) ++ snd (feed (fst (text_pass self c)) rest))
  end.

(** ** Reading the pushed frames *)

(** The payloads of the image-generation requests, in order. *)
Fixpoint images (out : list Pushed) : list str :=
  match out with
  | [] => []
  | Made (StoryImageFrame p) :: rest => p :: images rest
  | _ :: rest => images rest
  end.

(** The texts of the completed segments, in order. *)
Fixpoint pages (out : list Pushed) : list str :=
  match out with
  | [] => []
  | Made (StoryPageFrame t) :: rest => t :: pages rest
  | _ :: rest => pages rest
  end.

(** The UI cue messages, in order. *)
Fixpoint cues (out : list Pushed) : list Cue :=
  match out with
  | [] => []
  | Made (DailyTransportMessageFrame m) :: rest => m :: cues rest
  | _ :: rest => cues rest
  end.

(** The frames pushed on as received. *)
Fixpoint forwarded (out : list Pushed) : list Frame :=
  match out with
  | [] => []
  | Received f :: rest => f :: forwarded rest
  | Made _ :: rest => forwarded rest
  end.

(** The frames that the processor derives from its input: image requests,
    segments, prompts, cue messages and sounds, none of them the frame
    received. *)
Definition derived (f : Pushed) : Prop :=
  match f with
  | Made (StoryImageFrame _) | Made (StoryPageFrame _)
  | Made (StoryPromptFrame _) | Made (DailyTransportMessageFrame _)
  | Made (OutputAudioRawFrame _) => True
  | _ => False
  end.

(** ** The boundaries of a run without directives

    With no directive in the way, a run over chunks resolves a segment
    boundary at each chunk after which the text accumulated since the
    previous boundary holds a [[break]] or [[Break]] marker. *)





(** ** The scenario of the specification

    Three chunks of a reply, and the events and the story that the
    specification expects from them. *)

Definition scenario_chunks : list str :=
  [py "Once upon a time. ";
   py "[break] <a castle at sunset> ";
   py "The princess woke up.[break]"].

Definition scenario_expected_events : list Pushed :=
  [Made (StoryPageFrame (py "Once upon a time. "));
   Made (DailyTransportMessageFrame CUE_ASSISTANT_TURN);
   Made (StoryImageFrame (py "a castle at sunset"));
   Made (StoryPageFrame (py " The princess woke up."));
   Made (DailyTransportMessageFrame CUE_ASSISTANT_TURN)].

Definition scenario_expected_story : list str :=
  [py "Once upon a time. "; py " The princess woke up."].

(** ** More readings of the pushed frames *)

(** The texts of the user prompts, in order. *)
Fixpoint prompts (out : list Pushed) : list str :=
  match out with
  | [] => []
  | Made (StoryPromptFrame t) :: rest => t :: prompts rest
  | _ :: rest => prompts rest
  end.

(** The sounds that the processor takes from its table [sounds] and pushes,
    in order.  A sound frame that is received and pushed on is not among
    them. *)
Fixpoint sounds_pushed (out : list Pushed) : list Sound :=
  match out with
  | [] => []
  | Made (OutputAudioRawFrame s) :: rest => s :: sounds_pushed rest
  | _ :: rest => sounds_pushed rest
  end.

(** The frames that [process_frame] pushes on as received: those that are
    neither a [UserStoppedSpeakingFrame] nor a [TextFrame]. *)
Definition passes_through (frame : Frame) : bool :=
  match frame with
  | UserStoppedSpeakingFrame
  | TextFrame _ | StoryPageFrame _ | StoryImageFrame _ | StoryPromptFrame _ =>
      false
  | _ => true
  end.

Definition is_text (frame : Frame) : bool :=
  match as_TextFrame frame with
  | Some _ => true
  | None => false
  end.

Definition is_user_stopped (frame : Frame) : bool :=
  match frame with
  | UserStoppedSpeakingFrame => true
  | _ => false
  end.

Definition is_response_end (frame : Frame) : bool :=
  match frame with
  | LLMFullResponseEndFrame => true
  | _ => false
  end.

(** The sound that a lifecycle signal is answered with. *)
Definition sound_for (frame : Frame) : list Sound :=
  match frame with
  | UserStoppedSpeakingFrame => [talking]
  | LLMFullResponseEndFrame => [listening]
  | _ => []
  end.

(** The sound frames among the frames pushed, in order, whether taken from
    the table or received and pushed on. *)
Fixpoint sound_frames (out : list Pushed) : list Sound :=
  match out with
  | [] => []
  | Made (OutputAudioRawFrame s) :: rest
  | Received (OutputAudioRawFrame s) :: rest => s :: sound_frames rest
  | _ :: rest => sound_frames rest
  end.

(** The sound frames that an input frame leads to: the answer to a lifecycle
    signal, or the frame itself when it is a sound frame. *)
Definition sound_after (frame : Frame) : list Sound :=
  match frame with
  | UserStoppedSpeakingFrame => [talking]
  | LLMFullResponseEndFrame => [listening]
  | OutputAudioRawFrame s => [s]
  | _ => []
  end.

(** The clause for one id: [{name: value}] when the id is given. *)
Definition clause_for (name : str) (id : option str) : list (str * str) :=
  match id with
  | Some value => [(name, value)]
  | None => []
  end.

Definition is_user_cue (c : Cue) : bool :=
  match c with
  | CUE_USER_TURN => true
  | CUE_ASSISTANT_TURN => false
  end.

(* ------------------------------------------------------------------ *)
(** ** The greeting of the personalized voice agent

    [get_initial_greeting] of
    [examples/personalized-voice-agent/server/bot-openai.py].  The memory
    client is a collaborator: its [get_all] is an argument of the model, and
    either raises or returns the memories.  The two log lines of the function
    are not part of its result and are left out. *)

Fixpoint str_eqb (a b : str) : bool :=
  match a, b with
  | [], [] => true
  | x :: a', y :: b' => (x =? y)%N && str_eqb a' b'
  | _, _ => false
  end.

(** A memory as Mem0 returns it: a dict, of whose values only the one under
    ["memory"] is read.  The model takes that value to be a string or [None];
    a value of another type (a list, a number) is outside the model, and
    what is proved of the greeting is proved for memories of this kind. *)
Definition dict : Type := list (str * option str).

(** [d.get(key, default)] *)
Fixpoint dict_get (d : dict) (key : str) (default : option str) : option str :=
  match d with
  | [] => default
  | (k, v) :: rest => if str_eqb k key then v else dict_get rest key default
  end.

(** [{name: value}] *)
Definition Clause : Type := (str * str)%type.

(** [{"AND": clauses}], or [{}] as the empty list. *)
Definition Filters : Type := list (str * list Clause).

(** What [memory_client.get_all(...)] does: it raises, or it returns [None]
    or a list of memories. *)
Inductive Fetched : Type :=
| GetAllRaises
| GetAllReturns (memories : option (list dict)).

Record MemoryClient : Type := mkMemoryClient {
  get_all : Filters -> str -> Fetched
}.

(** The filters of the request: one clause for each id that is not [None]. *)
Definition filters_for (user_id agent_id run_id : option str) : Filters :=
  let id_pairs :=
    [(py "user_id", user_id); (py "agent_id", agent_id);
     (py "run_id", run_id)] in
  let clauses :=
    flat_map (fun nv => match snd nv with
                        | Some value => [(fst nv, value)]
                        | None => []
                        end) id_pairs in
  match clauses with
  | [] => []
  | _ :: _ => [(py "AND", clauses)]
  end.

(** The text a memory is quoted with: [memory_content] after the [if] of the
    loop body. *)
Definition quoted (memory_content : str) : str :=
  if 100 <? length memory_content
  then firstn 97 memory_content ++ py "..."
  else memory_content.

(** The [for] loop over [memories[:3]]; [None] when [len(memory_content)]
    raises, the content being [None]. *)
Fixpoint remember (memories : list dict) (greeting : str) : option str :=
  match memories with
  | [] => Some greeting
  | memory :: rest =>
      match dict_get memory (py "memory") (Some []) with
      | None => None
      | Some memory_content =>
          remember rest (greeting ++ quoted memory_content ++ py " ")
      end
  end.

Definition GREETING_FIRST_MEETING : str :=
  py "Hello! It's nice to meet you. How can I help you today?".

Definition GREETING_FALLBACK : str := py "Hello! How can I help you today?".

(** [get_initial_greeting(memory_client, user_id, agent_id, run_id)] *)
Definition get_initial_greeting (memory_client : MemoryClient)
    (user_id agent_id run_id : option str) : str :=
  let filters := filters_for user_id agent_id run_id in
  match get_all memory_client filters (py "v2") with
  | GetAllRaises => GREETING_FALLBACK
  | GetAllReturns None => GREETING_FIRST_MEETING
  | GetAllReturns (Some memories) =>
      if (length memories =? 0) || (length memories =? 0)
      then GREETING_FIRST_MEETING
      else
        let greeting := py "Hello! It's great to see you again. " in
        if 0 <? length memories then
          let greeting :=
            greeting ++ py "Based on our previous conversations, I remember: " in
          match remember (firstn 3 memories) greeting with
          | None => GREETING_FALLBACK
          | Some greeting => greeting ++ py "How can I help you today?"
          end
        else greeting
  end.

(** The text of a memory as the loop reads it:
    [memory.get('memory', '')]. *)
Definition content_of (memory : dict) : option str :=
  dict_get memory (py "memory") (Some []).

(** How many of the ids are given. *)
Definition given (ids : list (option str)) : nat :=
  length (filter (fun id => match id with Some _ => true | None => false end)
            ids).

(** A client that answers every request with the same memories. *)
Definition client_with (memories : list dict) : MemoryClient :=
  mkMemoryClient (fun _ _ => GetAllReturns (Some memories)).

(** A memory with the given text. *)
Definition memory_of (text : str) : dict := [(py "memory", Some text)].

(** ** Tactics *)

(** Case analysis on every comparison of code points in the goal. *)
Ltac split_eqb :=
  repeat match goal with
         | |- context [(?c =? ?n)%N] => destruct (c =? n)%N; cbn
         end.

(** One step through a method body: run the effects that are known. *)
Ltac step :=
  cbv beta iota;
  cbn [_text _story truthy negb attr item group lookup groups whole Nat.eqb
       ret raise pass push_frame story_append get_text set_text app fst snd].

(** The cases of a text pass: a directive or none, a marker or none, a
    segment long enough or not. *)
Ltac text_pass_cases self chunk :=
  unfold text_pass; cbv zeta;
  unfold directive_scan, segment_scan;
  destruct (first_directive (_text self ++ chunk)) as [[[?pre ?p] ?post]|] eqn:?Ed;
  cbn [fst snd];
  match goal with
  | |- context [if has_break ?b then _ else _] =>
      destruct (has_break b) eqn:?Eb; [destruct (2 <? _) eqn:?El|]
  end;
  cbn [fst snd app _text _story].

(* ------------------------------------------------------------------ *)
(** * Properties *)

#[local] Arguments N.eqb : simpl never.
#[local] Arguments Nat.ltb : simpl never.
#[local] Arguments Nat.leb : simpl never.

(** ** The matcher on samples

    Each line is the value Python gives for the same call. *)

Example search_lazy_group :
  option_map (fun m => (before m, group m 0, group m 1, after m))
    (search P_DIRECTIVE_GROUP (py "ab<c<d>ef<g>") NOFLAG)
  = Some (py "ab", Some (py "<c<d>"), Some (py "c<d"), py "ef<g>").
Proof. reflexivity. Qed.

Example search_dot_stops_at_newline :
  search P_DIRECTIVE (py "<a" ++ NL :: py "b>") NOFLAG = None.
Proof. reflexivity. Qed.

Example search_closed_twice :
  truthy (search P_DIRECTIVE_CLOSED_TWICE (py "<a> b") NOFLAG) = false
  /\ truthy (search P_DIRECTIVE_CLOSED_TWICE (py "<a> b>") NOFLAG) = true.
Proof. split; reflexivity. Qed.

Example search_break_on_a_later_line :
  truthy (search P_BREAK_ANYWHERE (py "ab" ++ NL :: py "cd[Break]ef") NOFLAG)
  = true.
Proof. reflexivity. Qed.

Example search_break_in_capitals :
  search P_BREAK_ANYWHERE (py "ab[BREAK]") NOFLAG = None.
Proof. reflexivity. Qed.

Example sub_ignorecase_all :
  sub P_BREAK [] (py "ab[BREAK]ef[brea[Break]k]") 0 IGNORECASE
  = py "abef[break]".
Proof. reflexivity. Qed.

Example sub_ignorecase_kelvin_sign :
  sub P_BREAK [] (py "a[brea" ++ 8490%N :: py "]b") 0 IGNORECASE = py "ab".
Proof. reflexivity. Qed.

Example sub_count_one :
  sub P_DIRECTIVE [] (py "ab<cd>ef<g>") 1 NOFLAG = py "abef<g>".
Proof. reflexivity. Qed.

Example sub_empty_matches :
  sub (Star (Lit (ord "x"))) (py "-") (py "abxd") 0 NOFLAG = py "-a-b--d-".
Proof. reflexivity. Qed.

(** ** Lists of code points *)

Lemma firstn_consumed (a r : str) :
  firstn (length (a ++ r) - length r) (a ++ r) = a.
Proof.
  rewrite length_app, Nat.add_sub.
  rewrite firstn_app, Nat.sub_diag, firstn_all. cbn. apply app_nil_r.
Qed.

Lemma not_in_cons_inv (c x : codepoint) (s : str) :
  ~ In c (x :: s) -> (x =? c)%N = false /\ ~ In c s.
Proof.
  intros H. split.
  - apply N.eqb_neq. intros ->. apply H. now left.
  - intros Hin. apply H. now right.
Qed.

(** ** The directive patterns find the first directive *)

Lemma close_of_spec (s p r : str) :
  close_of s = Some (p, r) -> s = p ++ GT :: r /\ ~ In GT p /\ ~ In NL p.
Proof.
  revert p r. induction s as [|c t IH]; intros p r; cbn; [discriminate|].
  destruct (N.eqb_spec c GT) as [->|Hgt].
  - intros [= <- <-]. cbn. auto.
  - destruct (N.eqb_spec c NL) as [->|Hnl]; [discriminate|].
    destruct (close_of t) as [[p' r']|]; [|discriminate].
    intros [= <- <-]. destruct (IH _ _ eq_refl) as (-> & Hg & Hn).
    repeat split; cbn; intuition congruence.
Qed.

Lemma close_of_app (p r : str) :
  ~ In GT p -> ~ In NL p -> close_of (p ++ GT :: r) = Some (p, r).
Proof.
  induction p as [|c p IH]; cbn [app close_of]; intros Hg Hn.
  - now rewrite N.eqb_refl.
  - apply not_in_cons_inv in Hg as [Hg Hg'], Hn as [Hn Hn'].
    now rewrite Hg, Hn, IH.
Qed.

Lemma close_of_none (s : str) : ~ In GT s -> close_of s = None.
Proof.
  induction s as [|c t IH]; cbn [close_of]; intros Hg; [reflexivity|].
  apply not_in_cons_inv in Hg as [Hg Hg'].
  rewrite Hg, IH by assumption. now destruct (c =? NL)%N.
Qed.

Lemma first_directive_spec (s pre p post : str) :
  first_directive s = Some (pre, p, post) ->
  s = pre ++ LT :: p ++ GT :: post /\ ~ In GT p /\ ~ In NL p.
Proof.
  revert pre. induction s as [|c t IH]; intros pre; cbn; [discriminate|].
  destruct (if (c =? LT)%N then close_of t else None) as [[p' r']|] eqn:E.
  - intros [= <- <- <-].
    destruct (N.eqb_spec c LT) as [->|]; [|discriminate].
    apply close_of_spec in E as (-> & ? & ?). cbn. auto.
  - destruct (first_directive t) as [[[pre' p'] r']|]; [|discriminate].
    intros [= <- <- <-]. destruct (IH _ eq_refl) as (-> & ? & ?). cbn. auto.
Qed.

(** The directive whose [<] is the first of the buffer and whose payload has
    no [>] and no newline is the one found. *)
Lemma first_directive_found (pre p post : str) :
  ~ In LT pre -> ~ In GT p -> ~ In NL p ->
  first_directive (pre ++ LT :: p ++ GT :: post) = Some (pre, p, post).
Proof.
  intros Hpre Hg Hn. induction pre as [|c pre IH]; cbn [app first_directive].
  - now rewrite N.eqb_refl, close_of_app.
  - apply not_in_cons_inv in Hpre as [Hc Hpre]. now rewrite Hc, IH.
Qed.

Lemma unpaired_app_l (a b : str) : unpaired (a ++ b) -> unpaired a.
Proof.
  intros H x y ->. specialize (H x (y ++ b)).
  rewrite <- app_assoc in H. cbn in H. specialize (H eq_refl).
  intros Hin. apply H, in_or_app. now left.
Qed.

Lemma unpaired_app_r (a b : str) : unpaired (a ++ b) -> unpaired b.
Proof.
  intros H x y ->. apply (H (a ++ x) y). now rewrite <- app_assoc.
Qed.

Lemma unpaired_nil : unpaired [].
Proof. intros [|? ?] y; discriminate. Qed.

Lemma unpaired_split (u v : str) :
  ~ In LT u -> ~ In GT v -> unpaired (u ++ v).
Proof.
  intros Hu Hv x y E. apply app_eq_app in E as [l [[-> E]|[-> E]]].
  - destruct l as [|c l]; cbn in E.
    + subst v. intros Hin. apply Hv. now right.
    + injection E as <- E. destruct Hu. apply in_or_app. right. now left.
  - subst v. intros Hin. apply Hv, in_or_app. right. now right.
Qed.

Lemma unpaired_no_directive (s : str) :
  unpaired s -> first_directive s = None.
Proof.
  induction s as [|c t IH]; intros H; cbn [first_directive]; [reflexivity|].
  rewrite IH by exact (unpaired_app_r [c] t H).
  destruct (N.eqb_spec c LT) as [->|]; [|reflexivity].
  now rewrite close_of_none by exact (H [] t eq_refl).
Qed.

Lemma has_directive_found (s : str) :
  has_directive s -> first_directive s <> None.
Proof.
  intros (x & p & y & -> & Hn). induction x as [|c x IH]; cbn [app first_directive].
  - rewrite N.eqb_refl.
    assert (H : close_of (p ++ GT :: y) <> None).
    { clear -Hn. induction p as [|c p IH]; cbn [app close_of].
      - now rewrite N.eqb_refl.
      - apply not_in_cons_inv in Hn as [Hc Hn].
        destruct (c =? GT)%N; [discriminate|]. rewrite Hc.
        specialize (IH Hn). destruct (close_of (p ++ GT :: y)) as [[? ?]|];
          [discriminate|contradiction]. }
    destruct (close_of (p ++ GT :: y)) as [[? ?]|]; [discriminate|contradiction].
  - destruct (if (c =? LT)%N then _ else _) as [[? ?]|]; [discriminate|].
    destruct (first_directive _) as [[[? ?] ?]|]; [discriminate|contradiction].
Qed.

Lemma first_directive_None_iff (s : str) :
  first_directive s = None <-> ~ has_directive s.
Proof.
  split.
  - intros E H. now apply has_directive_found in H.
  - intros H. destruct (first_directive s) as [[[pre p] post]|] eqn:E;
      [|reflexivity].
    apply first_directive_spec in E as (-> & _ & Hn).
    destruct H. now exists pre, p, post.
Qed.

(** ** The matcher consumes a prefix; [re.sub] has fuel enough *)

Lemma star_suffix (f : codepoint -> bool) (s : str) (k : str -> option found)
    (res : found) :
  star f s k = Some res -> exists a r, s = a ++ r /\ k r = Some res.
Proof.
  induction s as [|x t IH]; cbn [star]; intros H.
  - now exists [], [].
  - destruct (f x); [|now exists [], (x :: t)].
    destruct (star f t k) as [res'|] eqn:E; [|now exists [], (x :: t)].
    injection H as ->. destruct (IH eq_refl) as (a & r & -> & Hk).
    now exists (x :: a), r.
Qed.

Lemma star_lazy_suffix (f : codepoint -> bool) (s : str)
    (k : str -> option found) (res : found) :
  star_lazy f s k = Some res -> exists a r, s = a ++ r /\ k r = Some res.
Proof.
  induction s as [|x t IH]; cbn [star_lazy]; intros H.
  - destruct (k []) eqn:E; [injection H as ->; now exists [], [] | discriminate].
  - destruct (k (x :: t)) eqn:E; [injection H as ->; now exists [], (x :: t)|].
    destruct (f x); [|discriminate].
    destruct (IH H) as (a & r & -> & Hk). now exists (x :: a), r.
Qed.

Lemma matcher_suffix (ic : bool) (p : pattern) :
  forall (s : str) (g : captures) (k : str -> captures -> option found)
         (res : found),
    matcher ic p s g k = Some res ->
    exists a r g', s = a ++ r /\ k r g' = Some res.
Proof.
  induction p as [a|a|a|n q IH|q1 IH1 q2 IH2]; intros s g k res; cbn [matcher].
  - destruct s as [|x t]; [discriminate|].
    destruct (atom_matches ic a x); [|discriminate].
    intros H. now exists [x], t, g.
  - intros H. apply star_suffix in H as (b & r & -> & H). now exists b, r, g.
  - intros H. apply star_lazy_suffix in H as (b & r & -> & H).
    now exists b, r, g.
  - intros H. apply IH in H as (b & r & g' & -> & H). eauto.
  - intros H. apply IH1 in H as (b & r & g' & -> & H).
    apply IH2 in H as (b' & r' & g'' & -> & H).
    exists (b ++ b'), r', g''. now rewrite <- app_assoc.
Qed.

Lemma match_here_spec (adv ic : bool) (p : pattern) (s r : str) (g : captures) :
  match_here adv ic p s = Some (r, g) ->
  s = firstn (length s - length r) s ++ r
  /\ (adv = true -> firstn (length s - length r) s <> []).
Proof.
  unfold match_here. intros H.
  apply matcher_suffix in H as (a & r' & g' & -> & H).
  destruct (adv && _) eqn:E; [discriminate|]. injection H as -> ->.
  rewrite firstn_consumed. split; [reflexivity|]. intros -> ->. cbn in E.
  now rewrite Nat.eqb_refl in E.
Qed.

(** A match object cuts the string in three, and a match found under
    [must_advance] is not an empty match at the very start. *)
Lemma scan_spec (ic : bool) (p : pattern) (s : str) :
  forall (adv : bool) (m : Match),
    scan adv ic p s = Some m ->
    s = before m ++ whole m ++ after m
    /\ (adv = true -> whole m = [] -> before m <> []).
Proof.
  induction s as [|x t IH]; intros adv m; cbn [scan].
  - destruct (match_here adv ic p []) as [[r g]|] eqn:E; [|discriminate].
    intros [= <-]. apply match_here_spec in E as [E Ha].
    cbn [before whole after app]. split; [exact E|].
    intros H1 H2. now apply Ha in H1.
  - destruct (match_here adv ic p (x :: t)) as [[r g]|] eqn:E.
    + intros [= <-]. apply match_here_spec in E as [E Ha].
      cbn [before whole after app]. split; [exact E|].
      intros H1 H2. now apply Ha in H1.
    + destruct (scan false ic p t) as [m'|] eqn:E'; [|discriminate].
      intros [= <-]. destruct (IH _ _ E') as [Ht _].
      cbn [shift before whole after]. split; [|discriminate].
      cbn [app]. now f_equal.
Qed.

Lemma sub_loop_fuel (ic : bool) (p : pattern) (repl : str) (count : nat) :
  forall (fuel1 fuel2 done : nat) (adv : bool) (s : str),
    2 * length s + (if adv then 0 else 1) < fuel1 ->
    2 * length s + (if adv then 0 else 1) < fuel2 ->
    sub_loop fuel1 ic p repl count done adv s
    = sub_loop fuel2 ic p repl count done adv s.
Proof.
  induction fuel1 as [|f1 IH]; intros fuel2 done adv s H1 H2; [lia|].
  destruct fuel2 as [|f2]; [lia|]. cbn [sub_loop].
  destruct ((0 <? count) && (count <=? done)); [reflexivity|].
  destruct (scan adv ic p s) as [m|] eqn:E; [|reflexivity].
  apply scan_spec in E as [Es Hadv]. do 2 f_equal.
  assert (Hlen : length s
                 = length (before m) + (length (whole m) + length (after m)))
    by (rewrite Es at 1; now rewrite !length_app).
  assert (Hm : 2 * length (after m)
               + (if length (whole m) =? 0 then 0 else 1)
               < 2 * length s + (if adv then 0 else 1)).
  { destruct (Nat.eqb_spec (length (whole m)) 0) as [Hw|Hw]; [|lia].
    destruct adv; [|lia].
    apply length_zero_iff_nil in Hw. specialize (Hadv eq_refl Hw).
    destruct (before m); [contradiction|cbn [length] in Hlen; lia]. }
  apply IH; lia.
Qed.

(** More fuel than [re.sub] gives its loop changes nothing. *)
Lemma sub_fuel_enough (ic : bool) (p : pattern) (repl s : str)
    (count fuel : nat) :
  2 * length s + 2 <= fuel ->
  sub_loop fuel ic p repl count 0 false s = sub p repl s count ic.
Proof. intros H. unfold sub. apply sub_loop_fuel; lia. Qed.

(** ** What [re.search] and [re.sub] compute on the directive patterns *)

Lemma lazy_dot_close (g : captures) (s : str) :
  star_lazy (atom_matches false Dot) s
    (fun r => matcher false (Atom (Lit GT)) r g (fun r' g' => Some (r', g')))
  = match close_of s with
    | Some (_, rest) => Some (rest, g)
    | None => None
    end.
Proof.
  induction s as [|c t IH]; [reflexivity|].
  cbn [star_lazy matcher atom_matches same_char close_of] in *.
  destruct (c =? GT)%N; [reflexivity|].
  destruct (c =? NL)%N; cbn [negb]; [reflexivity|].
  rewrite IH. now destruct (close_of t) as [[? ?]|].
Qed.

Lemma lazy_dot_close_group (a s : str) :
  star_lazy (atom_matches false Dot) s
    (fun r => matcher false (Atom (Lit GT)) r
                [(1, firstn (length (a ++ s) - length r) (a ++ s))]
                (fun r' g' => Some (r', g')))
  = match close_of s with
    | Some (p, rest) => Some (rest, [(1, a ++ p)])
    | None => None
    end.
Proof.
  revert a. induction s as [|c t IH]; intros a; [reflexivity|].
  cbn [star_lazy matcher atom_matches same_char close_of].
  destruct (c =? GT)%N.
  - now rewrite firstn_consumed, app_nil_r.
  - destruct (c =? NL)%N; cbn [negb]; [reflexivity|].
    specialize (IH (a ++ [c])). rewrite <- app_assoc in IH.
    cbn [app matcher atom_matches same_char] in IH.
    rewrite IH. destruct (close_of t) as [[p rest]|]; [|reflexivity].
    now rewrite <- app_assoc.
Qed.

Lemma match_here_directive (s : str) :
  match_here false false P_DIRECTIVE s
  = match s with
    | [] => None
    | c :: t =>
        if (c =? LT)%N then
          match close_of t with
          | Some (_, rest) => Some (rest, [])
          | None => None
          end
        else None
    end.
Proof.
  destruct s as [|c t]; [reflexivity|].
  unfold match_here, P_DIRECTIVE. cbn [matcher atom_matches same_char andb].
  destruct (c =? LT)%N; [|reflexivity]. apply lazy_dot_close.
Qed.

Lemma match_here_directive_group (s : str) :
  match_here false false P_DIRECTIVE_GROUP s
  = match s with
    | [] => None
    | c :: t =>
        if (c =? LT)%N then
          match close_of t with
          | Some (p, rest) => Some (rest, [(1, p)])
          | None => None
          end
        else None
    end.
Proof.
  destruct s as [|c t]; [reflexivity|].
  unfold match_here, P_DIRECTIVE_GROUP.
  cbn [matcher atom_matches same_char andb].
  destruct (c =? LT)%N; [|reflexivity]. apply (lazy_dot_close_group [] t).
Qed.

Lemma whole_of_directive (p rest : str) :
  firstn (length (LT :: p ++ GT :: rest) - length rest) (LT :: p ++ GT :: rest)
  = LT :: p ++ [GT].
Proof.
  replace (LT :: p ++ GT :: rest) with ((LT :: p ++ [GT]) ++ rest)
    by (cbn; now rewrite <- app_assoc).
  apply firstn_consumed.
Qed.

(** [re.search(r"<.*?>", s)] finds the first directive of [s]. *)
Lemma search_directive (s : str) :
  search P_DIRECTIVE s NOFLAG
  = match first_directive s with
    | Some (pre, p, post) => Some (mkMatch pre (LT :: p ++ [GT]) post [])
    | None => None
    end.
Proof.
  unfold search, NOFLAG. induction s as [|c t IH]; [reflexivity|].
  cbn [scan first_directive]. rewrite match_here_directive.
  destruct (N.eqb_spec c LT) as [->|].
  - destruct (close_of t) as [[p rest]|] eqn:E.
    + apply close_of_spec in E as (-> & _ & _). now rewrite whole_of_directive.
    + rewrite IH. now destruct (first_directive t) as [[[? ?] ?]|].
  - rewrite IH. now destruct (first_directive t) as [[[? ?] ?]|].
Qed.

(** [re.search(r"<(.*?)>", s)] finds the same directive, and its group 1
    is the payload. *)
Lemma search_directive_group (s : str) :
  search P_DIRECTIVE_GROUP s NOFLAG
  = match first_directive s with
    | Some (pre, p, post) => Some (mkMatch pre (LT :: p ++ [GT]) post [(1, p)])
    | None => None
    end.
Proof.
  unfold search, NOFLAG. induction s as [|c t IH]; [reflexivity|].
  cbn [scan first_directive]. rewrite match_here_directive_group.
  destruct (N.eqb_spec c LT) as [->|].
  - destruct (close_of t) as [[p rest]|] eqn:E.
    + apply close_of_spec in E as (-> & _ & _). now rewrite whole_of_directive.
    + rewrite IH. now destruct (first_directive t) as [[[? ?] ?]|].
  - rewrite IH. now destruct (first_directive t) as [[[? ?] ?]|].
Qed.

(** [re.sub(p, "", s, count=1)] drops the first match and nothing else. *)
Lemma sub_once (ic : bool) (p : pattern) (s : str) :
  sub p [] s 1 ic
  = match scan false ic p s with
    | Some m => before m ++ after m
    | None => s
    end.
Proof.
  unfold sub. rewrite Nat.add_comm. cbn [Nat.add sub_loop Nat.ltb Nat.leb andb].
  change ((0 <? 1) && (1 <=? 0)) with false. cbn iota.
  destruct (scan false ic p s) as [m|]; reflexivity.
Qed.

Lemma sub_directive (s : str) :
  sub P_DIRECTIVE [] s 1 NOFLAG = fst (directive_scan s).
Proof.
  rewrite sub_once. pose proof (search_directive s) as E.
  unfold search, NOFLAG in E. unfold NOFLAG. rewrite E. unfold directive_scan.
  now destruct (first_directive s) as [[[? ?] ?]|].
Qed.

(** ** What [re.search] computes on the segment pattern *)

Lemma py_break_lower : py "[break]" = [91; 98; 114; 101; 97; 107; 93]%N.
Proof. reflexivity. Qed.

Lemma py_break_upper : py "[Break]" = [91; 66; 114; 101; 97; 107; 93]%N.
Proof. reflexivity. Qed.

(** [\[[bB]reak\]] matches at the start of [s] exactly when one of the two
    markers is there, and takes its seven characters. *)
Lemma matcher_break (s : str) (g : captures)
    (k : str -> captures -> option found) :
  matcher false P_BREAK s g k = if marker_here s then k (skipn 7 s) g else None.
Proof.
  unfold marker_here. rewrite py_break_lower, py_break_upper. unfold P_BREAK.
  do 7 (destruct s as [|? s];
        [cbn [matcher atom_matches same_char existsb starts_with];
         split_eqb; reflexivity|]).
  cbn [matcher atom_matches same_char existsb starts_with skipn].
  split_eqb; reflexivity.
Qed.

Lemma star_truthy (f : codepoint -> bool) (s : str) (k : str -> option found) :
  truthy (star f s k)
  = truthy (k s)
    || match s with
       | x :: t => f x && truthy (star f t k)
       | [] => false
       end.
Proof.
  destruct s as [|x t]; cbn [star].
  - now rewrite orb_false_r.
  - destruct (f x); cbn [andb]; [|now rewrite orb_false_r].
    destruct (star f t k); cbn; [now rewrite orb_true_r|].
    now rewrite orb_false_r.
Qed.

Lemma star_always (f : codepoint -> bool) (s : str) (k : str -> option found) :
  (forall r, truthy (k r) = true) -> truthy (star f s k) = true.
Proof. intros H. now rewrite star_truthy, H. Qed.

Lemma star_truthy_ext (f : codepoint -> bool) (s : str)
    (k k' : str -> option found) :
  (forall r, truthy (k r) = truthy (k' r)) ->
  truthy (star f s k) = truthy (star f s k').
Proof.
  intros H. induction s as [|x t IH].
  - cbn [star]. apply H.
  - rewrite (star_truthy f (x :: t) k), (star_truthy f (x :: t) k').
    now rewrite H, IH.
Qed.

Lemma marker_here_nil : marker_here [] = false.
Proof. reflexivity. Qed.

(** After its leading [.*], the segment pattern only asks for a marker: the
    trailing [.*] always matches. *)
Lemma truthy_match_here_break (s : str) :
  truthy (match_here false false P_BREAK_ANYWHERE s)
  = truthy (star (atom_matches false Dot) s
              (fun r => if marker_here r then Some (r, []) else None)).
Proof.
  unfold match_here, P_BREAK_ANYWHERE. cbn [matcher].
  apply star_truthy_ext. intros r. rewrite matcher_break.
  destruct (marker_here r); [|reflexivity]. now apply star_always.
Qed.

Lemma line_has_break (s : str) :
  truthy (star (atom_matches false Dot) s
            (fun r => if marker_here r then Some (r, []) else None)) = true ->
  has_break s = true.
Proof.
  induction s as [|x t IH]; rewrite star_truthy.
  - now rewrite marker_here_nil.
  - cbn [has_break]. destruct (marker_here (x :: t)); [reflexivity|].
    cbn [orb truthy]. intros H. apply andb_prop in H as [_ H]. auto.
Qed.

Lemma truthy_scan (adv ic : bool) (p : pattern) (s : str) :
  truthy (scan adv ic p s)
  = truthy (match_here adv ic p s)
    || match s with
       | [] => false
       | _ :: t => truthy (scan false ic p t)
       end.
Proof.
  destruct s as [|x t]; cbn [scan].
  - now destruct (match_here adv ic p []) as [[? ?]|].
  - destruct (match_here adv ic p (x :: t)) as [[? ?]|]; [reflexivity|].
    now destruct (scan false ic p t).
Qed.

(** [re.search(r".*\[[bB]reak\].*", s)] succeeds exactly when [s] holds
    [[break]] or [[Break]]. *)
Lemma search_break (s : str) :
  truthy (search P_BREAK_ANYWHERE s NOFLAG) = has_break s.
Proof.
  unfold search, NOFLAG. induction s as [|x t IH];
    rewrite truthy_scan, truthy_match_here_break.
  - reflexivity.
  - cbn [has_break]. rewrite IH.
    destruct (truthy (star _ (x :: t) _)) eqn:E.
    + apply line_has_break in E. cbn [has_break] in E. rewrite E. reflexivity.
    + rewrite star_truthy in E. apply orb_false_elim in E as [E _].
      destruct (marker_here (x :: t)); [discriminate|reflexivity].
Qed.

(** ** Markers as substrings *)

Lemma starts_with_spec (u s : str) :
  starts_with u s = true <-> exists y, s = u ++ y.
Proof.
  revert s. induction u as [|a u IH]; intros s; cbn [starts_with].
  - split; [now exists s | reflexivity].
  - destruct s as [|b s].
    + split; [discriminate | intros [y E]; discriminate].
    + rewrite andb_true_iff, N.eqb_eq, IH. split.
      * intros [-> [y ->]]. now exists y.
      * intros [y [= -> ->]]. split; [reflexivity | now exists y].
Qed.

Lemma marker_here_spec (s : str) :
  marker_here s = true <->
  (exists y, s = py "[break]" ++ y) \/ (exists y, s = py "[Break]" ++ y).
Proof.
  unfold marker_here. now rewrite orb_true_iff, !starts_with_spec.
Qed.

Lemma substring_cons (u s : str) (c : codepoint) :
  substring u s -> substring u (c :: s).
Proof. intros (x & y & ->). now exists (c :: x), y. Qed.

Lemma substring_app_l (u a b : str) : substring u a -> substring u (a ++ b).
Proof.
  intros (x & y & ->). exists x, (y ++ b). now rewrite <- !app_assoc.
Qed.

Lemma substring_here_or_later (u s : str) (c : codepoint) :
  substring u (c :: s) -> (exists y, c :: s = u ++ y) \/ substring u s.
Proof.
  intros ([|d x] & y & E).
  - left. now exists y.
  - right. injection E as _ ->. now exists x, y.
Qed.

(** [has_break] decides [break_marker]. *)
Lemma has_break_iff (s : str) : has_break s = true <-> break_marker s.
Proof.
  unfold break_marker. induction s as [|c t IH]; cbn [has_break].
  - split; [discriminate|].
    intros [([|? ?] & y & E)|([|? ?] & y & E)]; discriminate.
  - rewrite orb_true_iff, marker_here_spec, IH. split.
    + intros [[[y E]|[y E]]|[H|H]].
      * left. now exists [], y.
      * right. now exists [], y.
      * left. now apply substring_cons.
      * right. now apply substring_cons.
    + intros [H|H]; apply substring_here_or_later in H as [H|H]; auto.
Qed.

Lemma has_break_false_iff (s : str) : has_break s = false <-> ~ break_marker s.
Proof.
  rewrite <- has_break_iff. now destruct (has_break s).
Qed.

Lemma break_marker_app_l (a b : str) : break_marker a -> break_marker (a ++ b).
Proof. intros [H|H]; [left|right]; now apply substring_app_l. Qed.

(** ** [process_frame] on a text chunk is the two scans *)

Lemma process_frame_text (frame : Frame) (chunk : str) (self : StoryProcessor) :
  as_TextFrame frame = Some chunk ->
  process_frame frame self
  = (Returns tt, fst (text_pass self chunk), snd (text_pass self chunk)).
Proof.
  intros E.
  assert (H : process_frame frame = process_frame (TextFrame chunk))
    by (destruct frame; try discriminate; injection E as ->; reflexivity).
  rewrite H. clear H E. destruct self as [buf story].
  unfold text_pass, process_frame, bind. step.
  rewrite search_directive. unfold directive_scan.
  destruct (first_directive (buf ++ chunk)) as [[[pre p] post]|] eqn:E; step.
  - destruct (truthy (search P_DIRECTIVE_CLOSED_TWICE _ _)); step;
      rewrite search_directive_group, E; step;
      rewrite sub_directive; unfold directive_scan; rewrite E; step;
      rewrite search_break; unfold segment_scan, normalized;
      (destruct (has_break (pre ++ post)); step; [|reflexivity]);
      destruct (2 <? _); reflexivity.
  - rewrite search_break; unfold segment_scan, normalized.
    destruct (has_break (buf ++ chunk)); step; [|reflexivity].
    destruct (2 <? _); reflexivity.
Qed.

Lemma run_text_frames (chunks : list str) (self : StoryProcessor) :
  run (text_frames chunks) self
  = (Returns tt, fst (feed self chunks), snd (feed self chunks)).
Proof.
  revert self. induction chunks as [|c rest IH]; intros self.
  - reflexivity.
  - cbn [text_frames map run feed]. unfold bind.
    rewrite (process_frame_text (TextFrame c) c self eq_refl).
    fold (text_frames rest). now rewrite IH.
Qed.

Lemma images_app (a b : list Pushed) : images (a ++ b) = images a ++ images b.
Proof.
  induction a as [|[f|f] a IH]; cbn [app images]; [reflexivity|assumption|].
  destruct f; cbn [app]; now rewrite ?IH.
Qed.

Lemma directive_scan_forwarded (b : str) :
  forwarded (snd (directive_scan b)) = [].
Proof.
  unfold directive_scan. now destruct (first_directive b) as [[[? ?] ?]|].
Qed.

Lemma segment_scan_forwarded (story : list str) (b : str) :
  forwarded (snd (segment_scan story b)) = [].
Proof.
  unfold segment_scan. destruct (has_break b); [|reflexivity].
  now destruct (2 <? _).
Qed.

Lemma segment_scan_images (story : list str) (b : str) :
  images (snd (segment_scan story b)) = [].
Proof.
  unfold segment_scan. destruct (has_break b); [|reflexivity].
  now destruct (2 <? _).
Qed.

Lemma forwarded_app (a b : list Pushed) :
  forwarded (a ++ b) = forwarded a ++ forwarded b.
Proof.
  induction a as [|[f|f] a IH]; cbn [app forwarded]; now rewrite ?IH.
Qed.

(** [process_frame] never raises: the payload is read from a second search
    with a pattern that matches wherever the first one does. *)
Lemma process_frame_returns (frame : Frame) (self : StoryProcessor) :
  fst (fst (process_frame frame self)) = Returns tt.
Proof.
  destruct (as_TextFrame frame) as [chunk|] eqn:E.
  - now rewrite (process_frame_text _ _ _ E).
  - destruct frame; try discriminate; reflexivity.
Qed.

Lemma text_pass_state (self : StoryProcessor) (chunk : str) :
  text_pass self chunk
  = (fst (segment_scan (_story self) (fst (directive_scan (_text self ++ chunk)))),
     snd (directive_scan (_text self ++ chunk))
       ++ snd (segment_scan (_story self)
                 (fst (directive_scan (_text self ++ chunk))))).
Proof. reflexivity. Qed.

(** ** Feeding a sequence of chunks *)

Lemma no_directive_app_l (a b : str) :
  first_directive (a ++ b) = None -> first_directive a = None.
Proof.
  rewrite !first_directive_None_iff. intros H (x & p & y & -> & Hn).
  apply H. exists x, p, (y ++ b). split; [|assumption].
  rewrite <- app_assoc. cbn. now rewrite <- app_assoc.
Qed.

Lemma no_break_app_l (a b : str) :
  has_break (a ++ b) = false -> has_break a = false.
Proof.
  rewrite !has_break_false_iff. intros H Ha. now apply H, break_marker_app_l.
Qed.

Lemma text_pass_quiet (self : StoryProcessor) (chunk : str) :
  first_directive (_text self ++ chunk) = None ->
  has_break (_text self ++ chunk) = false ->
  text_pass self chunk
  = (mkStoryProcessor (_text self ++ chunk) (_story self), []).
Proof.
  intros Hd Hb. rewrite text_pass_state. unfold directive_scan.
  rewrite Hd. cbn [fst snd]. unfold segment_scan. now rewrite Hb.
Qed.

(** While the buffer holds neither a directive nor a marker, the chunks only
    pile up in it. *)
Lemma feed_quiet (chunks : list str) (self : StoryProcessor) :
  first_directive (_text self ++ concat chunks) = None ->
  has_break (_text self ++ concat chunks) = false ->
  feed self chunks
  = (mkStoryProcessor (_text self ++ concat chunks) (_story self), []).
Proof.
  revert self. induction chunks as [|c rest IH]; intros self Hd Hb.
  - cbn. rewrite app_nil_r. now destruct self.
  - cbn [concat feed] in *. rewrite app_assoc in Hd, Hb.
    rewrite text_pass_quiet
      by eauto using no_directive_app_l, no_break_app_l.
    cbn [fst snd]. rewrite IH by assumption. cbn [fst snd _text _story].
    now rewrite <- app_assoc.
Qed.

Lemma feed_app (a b : list str) (self : StoryProcessor) :
  feed self (a ++ b)
  = (fst (feed (fst (feed self a)) b),
     snd (feed self a) ++ snd (feed (fst (feed self a)) b)).
Proof.
  revert self. induction a as [|c a IH]; intros self; cbn [app feed fst snd].
  - now destruct (feed self b).
  - rewrite IH. cbn [fst snd]. now rewrite app_assoc.
Qed.

Lemma segment_scan_text (story : list str) (b : str) :
  _text (fst (segment_scan story b)) = b
  \/ _text (fst (segment_scan story b)) = [].
Proof.
  unfold segment_scan. destruct (has_break b); [|now left].
  right. now destruct (2 <? _).
Qed.

(** Once no [<] of what is buffered and still to come has a [>] after it, no
    image request is pushed any more. *)
Lemma feed_unpaired (chunks : list str) (self : StoryProcessor) :
  unpaired (_text self ++ concat chunks) ->
  images (snd (feed self chunks)) = [].
Proof.
  revert self. induction chunks as [|c rest IH]; intros self Hu; [reflexivity|].
  cbn [concat feed snd fst] in *. rewrite app_assoc in Hu.
  rewrite images_app, text_pass_state. cbn [fst snd].
  unfold directive_scan.
  rewrite (unpaired_no_directive _ (unpaired_app_l _ _ Hu)). cbn [fst snd app].
  rewrite segment_scan_images. cbn [app]. apply IH.
  destruct (segment_scan_text (_story self) (_text self ++ c)) as [-> | ->].
  - assumption.
  - exact (unpaired_app_r _ _ Hu).
Qed.

Lemma text_not_longer (a b c d : str) :
  a ++ b = c ++ GT :: d -> (exists tail, c = a ++ b ++ tail) -> False.
Proof.
  intros E [tail ->]. apply (f_equal (@length _)) in E.
  repeat (rewrite length_app in E; cbn [length] in E). lia.
Qed.

(** Until the closing [>] arrives the chunks pile up; the pass that receives
    it pushes the request, and none follows. *)
Lemma feed_one_directive (pre p post : str) :
  ~ In LT pre -> ~ In GT p -> ~ In NL p -> ~ In GT post ->
  forall (chunks : list str) (self : StoryProcessor),
    _text self ++ concat chunks = pre ++ LT :: p ++ GT :: post ->
    (exists tail, pre ++ LT :: p = _text self ++ tail) ->
    has_break (_text self ++ concat chunks) = false ->
    images (snd (feed self chunks)) = [p].
Proof.
  intros Hpre Hp Hn Hpost.
  assert (Hopen : unpaired (pre ++ LT :: p)).
  { apply unpaired_split; [assumption|]. intros [H|H]; [discriminate|auto]. }
  induction chunks as [|c rest IH]; intros self Hs Hshort Hb.
  - exfalso. cbn [concat] in Hs. destruct Hshort as [tail Ht].
    apply (text_not_longer (_text self) [] (pre ++ LT :: p) post).
    + now rewrite <- app_assoc.
    + now exists tail.
  - cbn [concat feed snd fst] in *. rewrite app_assoc in Hs, Hb.
    assert (Hquiet : forall l, pre ++ LT :: p = (_text self ++ c) ++ l ->
              images (snd (text_pass self c)
                      ++ snd (feed (fst (text_pass self c)) rest)) = [p]).
    { intros l El. rewrite text_pass_quiet.
      - cbn [fst snd app]. apply IH; cbn [_text]; try assumption.
        now exists l.
      - apply unpaired_no_directive, (unpaired_app_l _ l). now rewrite <- El.
      - exact (no_break_app_l _ _ Hb). }
    replace (pre ++ LT :: p ++ GT :: post) with ((pre ++ LT :: p) ++ GT :: post)
      in Hs by now rewrite <- app_assoc.
    apply app_eq_app in Hs as [l [[Eb El]|[Eb El]]]; [|exact (Hquiet l Eb)].
    destruct l as [|g l].
    { apply (Hquiet []). now rewrite Eb, !app_nil_r. }
    cbn [app] in El. injection El as <- ->.
    rewrite images_app, text_pass_state. cbn [fst snd].
    rewrite Eb, <- app_assoc. cbn [app]. unfold directive_scan.
    rewrite first_directive_found by assumption. cbn [fst snd app images].
    rewrite segment_scan_images. cbn [app]. f_equal.
    apply feed_unpaired.
    assert (Hu : unpaired (pre ++ l ++ concat rest))
      by now apply unpaired_split.
    destruct (segment_scan_text (_story self) (pre ++ l)) as [-> | ->].
    + now rewrite <- app_assoc.
    + cbn [app]. exact (unpaired_app_r _ _ (unpaired_app_r _ _ Hu)).
Qed.

Lemma not_in_check (c : codepoint) (s : str) :
  existsb (N.eqb c) s = false -> ~ In c s.
Proof.
  intros H Hin. assert (E : existsb (N.eqb c) s = true).
  { apply existsb_exists. exists c. split; [assumption | apply N.eqb_refl]. }
  congruence.
Qed.



(* ------------------------------------------------------------------ *)
(** * The claims of the specification *)

(** C1, as the specification states it, fails: the single chunk below holds
    one [<payload>], no other angle bracket and no marker, and no image
    request is pushed, because the payload runs over a line end, which the
    [.] of the directive patterns does not match. *)
Lemma C1_payload_with_newline_counterexample :
  concat [py "<a" ++ NL :: py "b>"]
    = [] ++ LT :: (py "a" ++ NL :: py "b") ++ GT :: []
  /\ ~ In LT (py "a" ++ NL :: py "b")
  /\ ~ In GT (py "a" ++ NL :: py "b")
  /\ has_break (concat [py "<a" ++ NL :: py "b>"]) = false
  /\ run (text_frames [py "<a" ++ NL :: py "b>"]) (__init__ [])
     = (Returns tt, mkStoryProcessor (py "<a" ++ NL :: py "b>") [], [])
  /\ images (snd (run (text_frames [py "<a" ++ NL :: py "b>"]) (__init__ [])))
     <> [py "a" ++ NL :: py "b"].
Proof.
  repeat split; try (vm_compute; reflexivity);
    try (apply not_in_check; reflexivity).
  intros H; vm_compute in H; discriminate.
Qed.

(** C1, amended. Let the concatenation of the chunks be [pre ++ "<" ++ p ++
    ">" ++ post], where the payload [p] holds no [>] and no newline, [pre]
    holds no [<] and [post] no [>] (so this is the only [<...>] pair), and let
    it hold no [[break]] or [[Break]] marker.  Then, however the text is cut
    into chunks, the run over the chunks returns normally and pushes exactly
    one image request, and its text is [p]. *)
Theorem C1_one_directive_any_chunking
    (story : list str) (chunks : list str) (pre p post : str) :
  concat chunks = pre ++ LT :: p ++ GT :: post ->
  ~ In LT pre -> ~ In GT p -> ~ In NL p -> ~ In GT post ->
  has_break (concat chunks) = false ->
  exists self' out,
    run (text_frames chunks) (__init__ story) = (Returns tt, self', out)
    /\ images out = [p].
Proof.
  intros Hs Hpre Hp Hn Hpost Hb.
  exists (fst (feed (__init__ story) chunks)),
         (snd (feed (__init__ story) chunks)).
  split; [apply run_text_frames|].
  apply (feed_one_directive pre p post); try assumption.
  now exists (pre ++ LT :: p).
Qed.

Lemma C1_one_directive_any_chunking_witness :
  exists self' out,
    run (text_frames [py "Look <a ca"; py "stle"; py "> there"])
        (__init__ [])
      = (Returns tt, self', out)
    /\ images out = [py "a castle"].
Proof.
  apply (C1_one_directive_any_chunking []
           [py "Look <a ca"; py "stle"; py "> there"]
           (py "Look ") (py "a castle") (py " there"));
    try (apply not_in_check; reflexivity); reflexivity.
Defined.




(** C3. Whatever the buffer holds, the empty buffer included, a
    response-fully-ended signal ([LLMFullResponseEndFrame]) returns normally,
    pushes in this order a [StoryPromptFrame] with the buffer's content, the
    signal itself as received, the "user's-turn" cue message and the
    "listening" sound, leaves the buffer empty and the story as it was. *)
Theorem C3_response_end_flushes_buffer (self : StoryProcessor) :
  process_frame LLMFullResponseEndFrame self
  = (Returns tt,
     mkStoryProcessor [] (_story self),
     [Made (StoryPromptFrame (_text self));
      Received LLMFullResponseEndFrame;
      Made (DailyTransportMessageFrame CUE_USER_TURN);
      Made (sounds listening)]).
Proof. reflexivity. Qed.

(** C4. In every text pass at most one image request is pushed.  When the
    buffer holds a directive, the request carries the payload of the first
    one and is the first frame pushed; the segment scan then works on the
    buffer with that directive cut out: the completed segment, if there is
    one, has the normalized text of what stood before and after the
    directive, and the story grows by that text alone.  When the buffer holds
    no directive, no request is pushed. *)
Theorem C4_directive_before_segment (self : StoryProcessor) (chunk : str) :
  exists self' out,
    process_frame (TextFrame chunk) self = (Returns tt, self', out)
    /\ length (images out) <= 1
    /\ match first_directive (_text self ++ chunk) with
       | Some (pre, p, post) =>
           exists rest,
             out = Made (StoryImageFrame p) :: rest
             /\ images rest = []
             /\ (self', rest) = segment_scan (_story self) (pre ++ post)
             /\ (pages rest = [] \/ pages rest = [normalized (pre ++ post)])
             /\ _story self' = _story self ++ pages rest
       | None =>
           images out = []
           /\ (self', out) = segment_scan (_story self) (_text self ++ chunk)
       end.
Proof.
  exists (fst (text_pass self chunk)), (snd (text_pass self chunk)).
  split; [exact (process_frame_text (TextFrame chunk) chunk self eq_refl)|].
  rewrite text_pass_state. cbn [fst snd]. unfold directive_scan.
  destruct (first_directive (_text self ++ chunk)) as [[[pre p] post]|];
    cbn [fst snd app].
  - pose proof (segment_scan_images (_story self) (pre ++ post)) as Hi.
    split; [cbn [images]; rewrite Hi; cbn; lia|].
    exists (snd (segment_scan (_story self) (pre ++ post))).
    repeat split; [exact Hi | now destruct (segment_scan _ _) | |];
      unfold segment_scan; destruct (has_break _);
      try destruct (2 <? _); cbn; auto using app_nil_r.
  - pose proof (segment_scan_images (_story self) (_text self ++ chunk)) as Hi.
    rewrite Hi. repeat split; [cbn; lia|]. now destruct (segment_scan _ _).
Qed.

(** C5, as the specification states it, fails: the pass below resolves a
    directive (it pushes the image request) and leaves the text around the
    directive in the buffer. *)
Lemma C5_directive_leaves_text_counterexample :
  images (snd (process_frame (TextFrame (py "ab<x>cd")) (__init__ []))) = [py "x"]
  /\ _text (snd (fst (process_frame (TextFrame (py "ab<x>cd")) (__init__ []))))
     = py "abcd"
  /\ _text (snd (fst (process_frame (TextFrame (py "ab<x>cd")) (__init__ []))))
     <> [].
Proof. repeat split; try reflexivity. intros H; vm_compute in H; discriminate. Qed.

(** C5, amended. The buffer that a call of [process_frame] leaves is known
    from the frame and the buffer before.  On a text chunk: the old buffer
    with the chunk appended, less the text of the first directive if there is
    one (the text before and after the directive stays), and then the empty
    string if what is kept holds a [[break]] or [[Break]] marker, whatever the
    length of the segment.  On a response-fully-ended signal: the empty
    string.  On any other frame: the buffer as it was. *)
Theorem C5_buffer_after_process_frame (frame : Frame) (self : StoryProcessor) :
  _text (snd (fst (process_frame frame self)))
  = match as_TextFrame frame with
    | Some chunk =>
        let kept :=
          match first_directive (_text self ++ chunk) with
          | Some (pre, _, post) => pre ++ post
          | None => _text self ++ chunk
          end in
        if has_break kept then [] else kept
    | None =>
        match frame with
        | LLMFullResponseEndFrame => []
        | _ => _text self
        end
    end.
Proof.
  destruct (as_TextFrame frame) as [chunk|] eqn:E.
  - rewrite (process_frame_text _ _ _ E), text_pass_state. cbn [fst snd].
    unfold directive_scan, segment_scan.
    destruct (first_directive (_text self ++ chunk)) as [[[pre p] post]|];
      cbn [fst]; cbv zeta;
      (destruct (has_break _); [now destruct (2 <? _) | reflexivity]).
  - destruct frame; try discriminate; reflexivity.
Qed.

(** C6. The code departs from the claim where a marker meets an unfinished
    directive.  After the chunk ["abc[break]<d"] the buffer holds an opening
    [<] and no closed pair; the pass pushes no image request, but it does
    not leave the buffer as the old content plus the chunk: the segment scan
    takes the unfinished directive into the page text ["abc<d"] and empties
    the buffer.  And in the run over ["ab<c"], ["[break]"], ["d>"] the
    opening of the directive goes out with the page ["ab<c"], and no later
    pass extracts the directive: no image request is pushed at all. *)
Theorem C6_unclosed_directive_is_flushed_by_a_marker :
  In LT (py "abc[break]<d")
  /\ first_directive (py "abc[break]<d") = None
  /\ process_frame (TextFrame (py "abc[break]<d")) (__init__ [])
     = (Returns tt, mkStoryProcessor [] [py "abc<d"],
        [Made (StoryPageFrame (py "abc<d"));
         Made (DailyTransportMessageFrame CUE_ASSISTANT_TURN)])
  /\ run (text_frames [py "ab<c"; py "[break]"; py "d>"]) (__init__ [])
     = (Returns tt, mkStoryProcessor (py "d>") [py "ab<c"],
        [Made (StoryPageFrame (py "ab<c"));
         Made (DailyTransportMessageFrame CUE_ASSISTANT_TURN)]).
Proof.
  repeat split; try (vm_compute; reflexivity).
  vm_compute. intuition.
Qed.

(** C7. A pass whose buffer, once the directive scan is done, holds a
    [[break]] or [[Break]] marker and has a normalized text of length at most
    2 returns normally, leaves the story as it was and the buffer empty, and
    pushes no completed segment and no cue message: it pushes what the
    directive scan pushed and nothing more. *)
Theorem C7_noise_segment_dropped (self : StoryProcessor) (chunk : str) :
  has_break (fst (directive_scan (_text self ++ chunk))) = true ->
  length (normalized (fst (directive_scan (_text self ++ chunk)))) <= 2 ->
  exists out,
    process_frame (TextFrame chunk) self
    = (Returns tt, mkStoryProcessor [] (_story self), out)
    /\ out = snd (directive_scan (_text self ++ chunk))
    /\ pages out = [] /\ cues out = [].
Proof.
  intros Hb Hlen. exists (snd (directive_scan (_text self ++ chunk))).
  rewrite (process_frame_text (TextFrame chunk) chunk self eq_refl).
  rewrite text_pass_state. cbn [fst snd]. unfold segment_scan. rewrite Hb.
  apply Nat.ltb_ge in Hlen. rewrite Hlen. cbn [fst snd]. rewrite app_nil_r.
  repeat split; unfold directive_scan;
    now destruct (first_directive _) as [[[? ?] ?]|].
Qed.

Lemma C7_noise_segment_dropped_witness :
  exists out,
    process_frame (TextFrame (py "[break]")) (mkStoryProcessor (py "<pic>a") [py "Once."])
    = (Returns tt, mkStoryProcessor [] [py "Once."], out)
    /\ out = [Made (StoryImageFrame (py "pic"))]
    /\ pages out = [] /\ cues out = [].
Proof.
  apply (C7_noise_segment_dropped
           (mkStoryProcessor (py "<pic>a") [py "Once."]) (py "[break]")).
  - reflexivity.
  - vm_compute. lia.
Defined.

(** C8, as the specification states it, fails: the run of the three chunks
    pushes other events than the expected ones, and leaves another story. *)
Lemma C8_scenario_counterexample :
  snd (run (text_frames scenario_chunks) (__init__ []))
    <> scenario_expected_events
  /\ _story (snd (fst (run (text_frames scenario_chunks) (__init__ []))))
    <> scenario_expected_story.
Proof. split; intros H; vm_compute in H; discriminate. Qed.

(** C8, amended. The three chunks, fed in order to a fresh processor with an
    empty story, push the image request first (the directive scan of the
    second pass runs before its segment scan), then the first segment with
    the three spaces left around the marker and the directive, the
    "assistant's-turn" cue, the second segment and the cue again; the story
    ends with the two segment texts in that order, the buffer empty. *)
Theorem C8_scenario :
  run (text_frames scenario_chunks) (__init__ [])
  = (Returns tt,
     mkStoryProcessor []
       [py "Once upon a time.   "; py "The princess woke up."],
     [Made (StoryImageFrame (py "a castle at sunset"));
      Made (StoryPageFrame (py "Once upon a time.   "));
      Made (DailyTransportMessageFrame CUE_ASSISTANT_TURN);
      Made (StoryPageFrame (py "The princess woke up."));
      Made (DailyTransportMessageFrame CUE_ASSISTANT_TURN)]).
Proof. vm_compute. reflexivity. Qed.

(** C10. [process_frame] always returns, and what it pushes on of the frame
    it received depends on the frame's class alone: a [TextFrame] (of any
    subclass) and a [UserStoppedSpeakingFrame] are consumed, every frame
    pushed is a derived one and none is the frame received; an
    [LLMFullResponseEndFrame] is pushed on once; a frame of any other class is
    the only frame pushed, and the processor is left as it was. *)
Theorem C10_only_response_end_is_forwarded
    (frame : Frame) (self : StoryProcessor) :
  exists self' out,
    process_frame frame self = (Returns tt, self', out) /\
    match frame with
    | UserStoppedSpeakingFrame
    | TextFrame _ | StoryPageFrame _ | StoryImageFrame _ | StoryPromptFrame _ =>
        forwarded out = [] /\ Forall derived out
    | LLMFullResponseEndFrame => forwarded out = [frame]
    | _ => out = [Received frame] /\ self' = self
    end.
Proof.
  destruct (as_TextFrame frame) as [chunk|] eqn:E.
  - exists (fst (text_pass self chunk)), (snd (text_pass self chunk)).
    split; [exact (process_frame_text _ _ _ E)|].
    assert (H : forwarded (snd (text_pass self chunk)) = []
                /\ Forall derived (snd (text_pass self chunk))).
    { unfold text_pass. cbn [snd].
      rewrite forwarded_app, directive_scan_forwarded, segment_scan_forwarded.
      split; [reflexivity|]. apply Forall_app. split.
      - unfold directive_scan.
        destruct (first_directive _) as [[[? ?] ?]|]; repeat constructor.
      - unfold segment_scan. destruct (has_break _); [|constructor].
        destruct (2 <? _); repeat constructor. }
    destruct frame; try discriminate; exact H.
  - destruct frame; try discriminate;
      (eexists; eexists; split; [reflexivity|]); cbn; auto.
    split; [reflexivity|]. repeat constructor.
Qed.

(* ------------------------------------------------------------------ *)
(** * Further properties of [StoryProcessor] *)

(** ** Runs over arbitrary frames *)

Lemma process_frame_cases (frame : Frame) (self : StoryProcessor) :
  process_frame frame self
  = match as_TextFrame frame with
    | Some chunk =>
        (Returns tt, fst (text_pass self chunk), snd (text_pass self chunk))
    | None =>
        match frame with
        | UserStoppedSpeakingFrame =>
            (Returns tt, self,
             [Made (DailyTransportMessageFrame CUE_ASSISTANT_TURN);
              Made (sounds talking)])
        | LLMFullResponseEndFrame =>
            (Returns tt, mkStoryProcessor [] (_story self),
             [Made (StoryPromptFrame (_text self)); Received frame;
              Made (DailyTransportMessageFrame CUE_USER_TURN);
              Made (sounds listening)])
        | _ => (Returns tt, self, [Received frame])
        end
    end.
Proof.
  destruct (as_TextFrame frame) as [chunk|] eqn:E.
  - exact (process_frame_text _ _ _ E).
  - destruct frame; try discriminate; reflexivity.
Qed.

Lemma run_cons (frame : Frame) (rest : list Frame) (self : StoryProcessor) :
  run (frame :: rest) self
  = (fst (fst (run rest (snd (fst (process_frame frame self))))),
     snd (fst (run rest (snd (fst (process_frame frame self))))),
     snd (process_frame frame self)
       ++ snd (run rest (snd (fst (process_frame frame self))))).
Proof.
  cbn [run]. unfold bind. pose proof (process_frame_returns frame self) as H.
  destruct (process_frame frame self) as [[r s1] o1]. cbn [fst snd] in *.
  subst r. now destruct (run rest s1) as [[? ?] ?].
Qed.

Lemma run_returns (frames : list Frame) (self : StoryProcessor) :
  fst (fst (run frames self)) = Returns tt.
Proof.
  revert self. induction frames as [|f rest IH]; intros self; [reflexivity|].
  rewrite run_cons. cbn [fst]. apply IH.
Qed.

Lemma run_eta (frames : list Frame) (self : StoryProcessor) :
  run frames self
  = (Returns tt, snd (fst (run frames self)), snd (run frames self)).
Proof.
  pose proof (run_returns frames self) as H.
  destruct (run frames self) as [[r s1] o1]. cbn in *. now subst.
Qed.

Lemma pages_app (a b : list Pushed) : pages (a ++ b) = pages a ++ pages b.
Proof.
  induction a as [|[f|f] a IH]; cbn [app pages]; [reflexivity|assumption|].
  destruct f; cbn [app]; now rewrite ?IH.
Qed.

Lemma cues_app (a b : list Pushed) : cues (a ++ b) = cues a ++ cues b.
Proof.
  induction a as [|[f|f] a IH]; cbn [app cues]; [reflexivity|assumption|].
  destruct f; cbn [app]; now rewrite ?IH.
Qed.

Lemma prompts_app (a b : list Pushed) :
  prompts (a ++ b) = prompts a ++ prompts b.
Proof.
  induction a as [|[f|f] a IH]; cbn [app prompts]; [reflexivity|assumption|].
  destruct f; cbn [app]; now rewrite ?IH.
Qed.

Lemma sounds_pushed_app (a b : list Pushed) :
  sounds_pushed (a ++ b) = sounds_pushed a ++ sounds_pushed b.
Proof.
  induction a as [|[f|f] a IH]; cbn [app sounds_pushed];
    [reflexivity|assumption|].
  destruct f; cbn [app]; now rewrite ?IH.
Qed.

Lemma normalized_no_newline (b : str) : ~ In NL (normalized b).
Proof.
  unfold normalized, replace. intros H. apply in_map_iff in H as (c & E & _).
  destruct (N.eqb_spec c NL); [discriminate | contradiction].
Qed.

(** X1. Whatever frames the processor is fed, in whatever state, no call of
    [process_frame] raises, and the story only grows: it ends as the story
    before followed by the texts of the completed segments pushed, in the
    order they were pushed. *)
Theorem story_grows_by_the_pages_pushed
    (frames : list Frame) (self : StoryProcessor) :
  exists self' out,
    run frames self = (Returns tt, self', out)
    /\ _story self' = _story self ++ pages out.
Proof.
  exists (snd (fst (run frames self))), (snd (run frames self)).
  split; [apply run_eta|].
  revert self. induction frames as [|f rest IH]; intros self.
  - cbn. now rewrite app_nil_r.
  - rewrite run_cons. cbn [fst snd]. rewrite IH, pages_app, app_assoc.
    f_equal. rewrite process_frame_cases.
    destruct (as_TextFrame f) as [chunk|].
    + cbn [fst snd]. text_pass_cases self chunk;
        rewrite ?pages_app; cbn; now rewrite ?app_nil_r.
    + destruct f; cbn; now rewrite app_nil_r.
Qed.

(** X2. Every completed segment pushed, in any run, has more than two
    characters and no newline in it. *)
Theorem pages_are_long_enough_and_on_one_line
    (frames : list Frame) (self : StoryProcessor) :
  Forall (fun t => 2 < length t /\ ~ In NL t) (pages (snd (run frames self))).
Proof.
  revert self. induction frames as [|f rest IH]; intros self; [constructor|].
  rewrite run_cons. cbn [snd]. rewrite pages_app. apply Forall_app.
  split; [|apply IH]. rewrite process_frame_cases.
  destruct (as_TextFrame f) as [chunk|].
  - cbn [snd]. text_pass_cases self chunk; rewrite ?pages_app;
      cbn [pages app]; repeat constructor;
      try (now apply Nat.ltb_lt); apply normalized_no_newline.
  - destruct f; cbn; constructor.
Qed.

(** X3. Every image request pushed, in any run, carries a payload with no
    [>] and no newline in it: the payload ends at the first [>] and lies on
    one line. *)
Theorem image_payloads_are_closed_on_one_line
    (frames : list Frame) (self : StoryProcessor) :
  Forall (fun p => ~ In GT p /\ ~ In NL p) (images (snd (run frames self))).
Proof.
  revert self. induction frames as [|f rest IH]; intros self; [constructor|].
  rewrite run_cons. cbn [snd]. rewrite images_app. apply Forall_app.
  split; [|apply IH]. rewrite process_frame_cases.
  destruct (as_TextFrame f) as [chunk|].
  - cbn [snd]. text_pass_cases self chunk; cbn [images app];
      repeat constructor;
      try (apply first_directive_spec in Ed; tauto).
  - destruct f; cbn; constructor.
Qed.

(** X4. The frames pushed on as received are exactly the input frames that
    are neither text frames nor user-stopped-speaking signals, in their
    order of arrival. *)
Theorem forwarded_frames_keep_their_order
    (frames : list Frame) (self : StoryProcessor) :
  forwarded (snd (run frames self)) = filter passes_through frames.
Proof.
  revert self. induction frames as [|f rest IH]; intros self; [reflexivity|].
  rewrite run_cons. cbn [snd filter]. rewrite forwarded_app, IH.
  rewrite process_frame_cases. destruct (as_TextFrame f) as [chunk|] eqn:E.
  - cbn [snd]. unfold text_pass. cbn [snd].
    rewrite forwarded_app, directive_scan_forwarded, segment_scan_forwarded.
    destruct f; try discriminate; reflexivity.
  - destruct f; try discriminate; reflexivity.
Qed.

(** X5. The cue messages pushed are accounted for by the input: one
    "user's-turn" cue for each response-fully-ended signal, and one
    "assistant's-turn" cue for each user-stopped-speaking signal and for each
    completed segment. *)
Theorem cues_match_signals_and_pages
    (frames : list Frame) (self : StoryProcessor) :
  length (filter is_user_cue (cues (snd (run frames self))))
    = length (filter is_response_end frames)
  /\ length (filter (fun c => negb (is_user_cue c))
               (cues (snd (run frames self))))
    = length (filter is_user_stopped frames)
      + length (pages (snd (run frames self))).
Proof.
  revert self. induction frames as [|f rest IH]; intros self; [now split|].
  rewrite run_cons. cbn [snd filter].
  destruct (IH (snd (fst (process_frame f self)))) as [IH1 IH2].
  rewrite cues_app, pages_app, !filter_app, !length_app, IH1, IH2.
  rewrite process_frame_cases. destruct (as_TextFrame f) as [chunk|] eqn:E.
  - assert (is_response_end f = false /\ is_user_stopped f = false) as [-> ->]
      by (destruct f; try discriminate; now split).
    cbn [snd]. text_pass_cases self chunk; cbn; lia.
  - destruct f; try discriminate; cbn; lia.
Qed.

Lemma sound_frames_app (a b : list Pushed) :
  sound_frames (a ++ b) = sound_frames a ++ sound_frames b.
Proof.
  induction a as [|[f|f] a IH]; cbn [app sound_frames]; [reflexivity| |];
    destruct f; cbn [app]; now rewrite ?IH.
Qed.

(** X6. The sounds that the processor takes from its table are exactly the
    "talking" sound for each user-stopped-speaking signal and the "listening"
    sound for each response-fully-ended signal, in the order of the signals:
    it never takes the "ding" sound from the table.  Counting also the sound
    frames that it receives and pushes on, the sound frames pushed are those
    answers and the sound frames received, in the order of arrival. *)
Theorem sounds_answer_the_signals
    (frames : list Frame) (self : StoryProcessor) :
  sounds_pushed (snd (run frames self)) = flat_map sound_for frames
  /\ sound_frames (snd (run frames self)) = flat_map sound_after frames.
Proof.
  revert self. induction frames as [|f rest IH]; intros self; [now split|].
  rewrite run_cons. cbn [snd flat_map].
  destruct (IH (snd (fst (process_frame f self)))) as [IH1 IH2].
  rewrite sounds_pushed_app, sound_frames_app, IH1, IH2.
  rewrite process_frame_cases.
  destruct (as_TextFrame f) as [chunk|] eqn:E.
  - assert (sound_for f = [] /\ sound_after f = []) as [-> ->]
      by (destruct f; try discriminate; now split).
    cbn [snd]. text_pass_cases self chunk; now split.
  - destruct f; try discriminate; now split.
Qed.

Lemma text_pass_leaves_no_marker (self : StoryProcessor) (chunk : str) :
  has_break (_text (fst (text_pass self chunk))) = false.
Proof.
  unfold text_pass. cbn [fst]. unfold segment_scan.
  destruct (has_break (fst (directive_scan (_text self ++ chunk)))) eqn:E.
  - now destruct (2 <? _).
  - exact E.
Qed.

(** X7. If the buffer holds no [[break]] or [[Break]] marker, as in a fresh
    processor, then after any run it holds none, and no user prompt pushed
    during the run holds one. *)
Theorem prompts_hold_no_marker (frames : list Frame) (self : StoryProcessor) :
  has_break (_text self) = false ->
  has_break (_text (snd (fst (run frames self)))) = false
  /\ Forall (fun t => has_break t = false) (prompts (snd (run frames self))).
Proof.
  revert self. induction frames as [|f rest IH]; intros self H.
  - split; [exact H | constructor].
  - rewrite run_cons. cbn [fst snd]. rewrite prompts_app.
    assert (Hstep : has_break (_text (snd (fst (process_frame f self)))) = false
                    /\ Forall (fun t => has_break t = false)
                         (prompts (snd (process_frame f self)))).
    { rewrite process_frame_cases. destruct (as_TextFrame f) as [chunk|].
      - cbn [fst snd]. split; [apply text_pass_leaves_no_marker|].
        text_pass_cases self chunk; constructor.
      - destruct f; cbn; repeat constructor; assumption. }
    destruct Hstep as [H1 H2]. destruct (IH _ H1) as [IH1 IH2].
    split; [exact IH1|]. apply Forall_app. now split.
Qed.

Lemma prompts_hold_no_marker_witness :
  has_break (_text (snd (fst (run
     [TextFrame (py "Once[bre"); TextFrame (py "ak] What "); TextFrame (py "next?");
      LLMFullResponseEndFrame] (__init__ []))))) = false
  /\ Forall (fun t => has_break t = false)
       (prompts (snd (run
          [TextFrame (py "Once[bre"); TextFrame (py "ak] What "); TextFrame (py "next?");
           LLMFullResponseEndFrame] (__init__ [])))).
Proof.
  apply (prompts_hold_no_marker
           [TextFrame (py "Once[bre"); TextFrame (py "ak] What "); TextFrame (py "next?");
            LLMFullResponseEndFrame] (__init__ [])).
  reflexivity.
Defined.

(** X8. Where a reply is cut into chunks does not matter as long as nothing
    has been resolved: if the buffer followed by the chunks before the last
    holds no closed directive and no marker, feeding the chunks one by one
    does what feeding their concatenation in one chunk does. *)
Theorem chunking_is_irrelevant_before_a_boundary
    (earlier : list str) (last : str) (self : StoryProcessor) :
  first_directive (_text self ++ concat earlier) = None ->
  has_break (_text self ++ concat earlier) = false ->
  run (text_frames (earlier ++ [last])) self
  = run (text_frames [concat earlier ++ last]) self.
Proof.
  intros Hd Hb.
  rewrite !run_text_frames, feed_app, (feed_quiet earlier self Hd Hb).
  cbn [feed fst snd app]. rewrite !app_nil_r.
  unfold text_pass. cbn [_text _story]. now rewrite <- app_assoc.
Qed.

Lemma chunking_is_irrelevant_before_a_boundary_witness :
  run (text_frames ([py "a <cas"; py "tle at"] ++ [py " dusk> b[break]"]))
      (mkStoryProcessor (py "Look: ") [])
  = run (text_frames [concat [py "a <cas"; py "tle at"] ++ py " dusk> b[break]"])
      (mkStoryProcessor (py "Look: ") []).
Proof.
  apply (chunking_is_irrelevant_before_a_boundary
           [py "a <cas"; py "tle at"] (py " dusk> b[break]")
           (mkStoryProcessor (py "Look: ") []));
    reflexivity.
Defined.

(** X9. A run pushes at most one image request and at most one completed
    segment for each text frame it is fed; frames of other classes bring
    about neither. *)
Theorem at_most_one_request_and_page_per_text_frame
    (frames : list Frame) (self : StoryProcessor) :
  length (images (snd (run frames self))) <= length (filter is_text frames)
  /\ length (pages (snd (run frames self))) <= length (filter is_text frames).
Proof.
  revert self. induction frames as [|f rest IH]; intros self; [now split|].
  rewrite run_cons. cbn [snd].
  assert (Hstep : length (images (snd (process_frame f self)))
                    <= length (filter is_text [f])
                  /\ length (pages (snd (process_frame f self)))
                    <= length (filter is_text [f])).
  { rewrite process_frame_cases. unfold is_text. cbn [filter].
    destruct (as_TextFrame f) as [chunk|] eqn:E.
    - cbn [snd length]. text_pass_cases self chunk; cbn; lia.
    - destruct f; try discriminate; cbn; lia. }
  destruct Hstep as [H1 H2].
  destruct (IH (snd (fst (process_frame f self)))) as [IH1 IH2].
  change (f :: rest) with ([f] ++ rest).
  rewrite images_app, pages_app, filter_app, !length_app. lia.
Qed.

(** X17. A text pass after which the buffer holds no closed directive (no
    [<] followed by a [>] on the same line) returns normally and pushes no
    image request.  If the buffer holds no [[break]] or [[Break]] marker
    either, the pass pushes nothing at all and leaves the buffer as the old
    content plus the chunk and the story as it was; and if the very next
    chunk closes a directive, the pass of that chunk pushes the request with
    its payload. *)
Theorem unclosed_directive_waits_for_the_next_chunk (self : StoryProcessor) (chunk : str) :
  first_directive (_text self ++ chunk) = None ->
  exists self' out,
    process_frame (TextFrame chunk) self = (Returns tt, self', out)
    /\ images out = []
    /\ (has_break (_text self ++ chunk) = false ->
        self' = mkStoryProcessor (_text self ++ chunk) (_story self)
        /\ out = []
        /\ forall chunk2 pre p post,
             first_directive (_text self ++ chunk ++ chunk2)
               = Some (pre, p, post) ->
             exists self'' out2,
               process_frame (TextFrame chunk2) self'
                 = (Returns tt, self'', out2)
               /\ images out2 = [p]).
Proof.
  intros Hd. exists (fst (text_pass self chunk)), (snd (text_pass self chunk)).
  split; [exact (process_frame_text (TextFrame chunk) chunk self eq_refl)|].
  rewrite text_pass_state. cbn [fst snd]. unfold directive_scan.
  rewrite Hd. cbn [fst snd app]. split; [apply segment_scan_images|].
  intros Hb. unfold segment_scan. rewrite Hb. cbn [fst snd].
  repeat split. intros chunk2 pre p post Hd2.
  set (self' := mkStoryProcessor (_text self ++ chunk) (_story self)).
  exists (fst (text_pass self' chunk2)), (snd (text_pass self' chunk2)).
  split; [exact (process_frame_text (TextFrame chunk2) chunk2 self' eq_refl)|].
  rewrite text_pass_state. cbn [fst snd]. unfold self'. cbn [_text _story].
  rewrite <- app_assoc. unfold directive_scan. rewrite Hd2. cbn [fst snd].
  rewrite images_app, segment_scan_images. reflexivity.
Qed.

Lemma unclosed_directive_waits_for_the_next_chunk_witness :
  exists self' out,
    process_frame (TextFrame (py "a <cas")) (mkStoryProcessor (py "Look: ") [])
      = (Returns tt, self', out)
    /\ images out = []
    /\ self' = mkStoryProcessor (py "Look: a <cas") []
    /\ out = []
    /\ exists self'' out2,
         process_frame (TextFrame (py "tle> b")) self' = (Returns tt, self'', out2)
         /\ images out2 = [py "castle"].
Proof.
  destruct (unclosed_directive_waits_for_the_next_chunk
              (mkStoryProcessor (py "Look: ") []) (py "a <cas") eq_refl)
    as (self' & out & E & Hi & H).
  destruct (H eq_refl) as (Hs & Ho & Hlater).
  exists self', out. repeat split; try assumption.
  apply (Hlater (py "tle> b") (py "Look: a ") (py "castle") (py " b")).
  reflexivity.
Defined.

(* ------------------------------------------------------------------ *)
(** * Properties of [get_initial_greeting] *)

Lemma quoted_cases (c : str) :
  (length c <= 100 /\ quoted c = c)
  \/ (100 < length c /\ quoted c = firstn 97 c ++ py "...").
Proof.
  unfold quoted. destruct (Nat.ltb_spec 100 (length c)); [right|left]; auto.
Qed.

Lemma quoted_length (c : str) : length (quoted c) = Nat.min (length c) 100.
Proof.
  destruct (quoted_cases c) as [[H ->]|[H ->]]; [lia|].
  rewrite length_app, length_firstn. cbn [py length map list_ascii_of_string].
  lia.
Qed.

(** The loop, as a map over the memories: it fails when a text is [None],
    and otherwise appends every text, quoted and followed by a space. *)
Lemma remember_texts (memories : list dict) (texts : list str) :
  map content_of memories = map Some texts ->
  forall greeting,
    remember memories greeting
    = Some (greeting ++ concat (map (fun t => quoted t ++ py " ") texts)).
Proof.
  revert texts. induction memories as [|m rest IH]; intros [|t texts] E g;
    try discriminate.
  - cbn. now rewrite app_nil_r.
  - cbn [map] in E. injection E as Em E. cbn [remember].
    unfold content_of in Em. rewrite Em, (IH texts E).
    cbn [map concat]. now rewrite <- !app_assoc.
Qed.

Lemma remember_none (memories : list dict) (m : dict) :
  In m memories -> content_of m = None ->
  forall greeting, remember memories greeting = None.
Proof.
  induction memories as [|m' rest IH]; intros Hin Hm g; [contradiction|].
  cbn [remember]. destruct Hin as [->|Hin].
  - unfold content_of in Hm. now rewrite Hm.
  - destruct (dict_get m' (py "memory") (Some [])); [|reflexivity]. now apply IH.
Qed.

Lemma remember_length (memories : list dict) :
  forall greeting r,
    remember memories greeting = Some r ->
    length r <= length greeting + 101 * length memories.
Proof.
  induction memories as [|m rest IH]; intros g r; cbn [remember].
  - intros [= <-]. lia.
  - destruct (dict_get m (py "memory") (Some [])) as [c|]; [|discriminate].
    intros H. apply IH in H. rewrite !length_app, quoted_length in H.
    cbn [py length map list_ascii_of_string] in *. lia.
Qed.

Lemma remember_prefix (memories : list dict) :
  forall greeting r,
    remember memories greeting = Some r -> exists tail, r = greeting ++ tail.
Proof.
  induction memories as [|m rest IH]; intros g r; cbn [remember].
  - intros [= <-]. exists []. now rewrite app_nil_r.
  - destruct (dict_get m (py "memory") (Some [])) as [c|]; [|discriminate].
    intros H. apply IH in H as [tail ->]. rewrite <- app_assoc. eauto.
Qed.

Lemma nonempty_length (A : Type) (l : list A) :
  l <> [] -> (length l =? 0) = false /\ (0 <? length l) = true.
Proof. destruct l; [contradiction|]. now split. Qed.

(** X10. When the client returns memories, the greeting quotes the texts of
    the first three of them, in their order, each followed by a space,
    between the fixed opening and the fixed closing question. *)
Theorem greeting_quotes_the_first_three_memories
    (client : MemoryClient) (user_id agent_id run_id : option str)
    (memories : list dict) (texts : list str) :
  get_all client (filters_for user_id agent_id run_id) (py "v2")
    = GetAllReturns (Some memories) ->
  memories <> [] ->
  map content_of (firstn 3 memories) = map Some texts ->
  get_initial_greeting client user_id agent_id run_id
  = py "Hello! It's great to see you again. "
    ++ py "Based on our previous conversations, I remember: "
    ++ concat (map (fun t => quoted t ++ py " ") texts)
    ++ py "How can I help you today?".
Proof.
  intros Hget Hne Htexts. unfold get_initial_greeting. cbv zeta.
  rewrite Hget. destruct (nonempty_length _ _ Hne) as [-> ->]. cbn [orb].
  rewrite (remember_texts _ _ Htexts). now rewrite <- !app_assoc.
Qed.

Lemma greeting_quotes_the_first_three_memories_witness :
  get_initial_greeting
    (client_with [memory_of (py "likes tea"); [];
                  memory_of (py "has a cat"); memory_of (py "left out")])
    (Some (py "deshraj")) None None
  = py "Hello! It's great to see you again. "
    ++ py "Based on our previous conversations, I remember: "
    ++ concat (map (fun t => quoted t ++ py " ")
                 [py "likes tea"; []; py "has a cat"])
    ++ py "How can I help you today?".
Proof.
  apply (greeting_quotes_the_first_three_memories
           (client_with [memory_of (py "likes tea"); [];
                         memory_of (py "has a cat"); memory_of (py "left out")])
           (Some (py "deshraj")) None None
           [memory_of (py "likes tea"); [];
            memory_of (py "has a cat"); memory_of (py "left out")]
           [py "likes tea"; []; py "has a cat"]).
  - reflexivity.
  - discriminate.
  - reflexivity.
Defined.

(** X11. Only the first three memories count: two clients whose answers
    agree on the first three memories get the same greeting, whatever
    follows them. *)
Theorem greeting_ignores_memories_after_the_third
    (client1 client2 : MemoryClient) (user_id agent_id run_id : option str)
    (memories : list dict) :
  get_all client1 (filters_for user_id agent_id run_id) (py "v2")
    = GetAllReturns (Some memories) ->
  get_all client2 (filters_for user_id agent_id run_id) (py "v2")
    = GetAllReturns (Some (firstn 3 memories)) ->
  get_initial_greeting client1 user_id agent_id run_id
  = get_initial_greeting client2 user_id agent_id run_id.
Proof.
  intros H1 H2. unfold get_initial_greeting. cbv zeta. rewrite H1, H2.
  rewrite firstn_firstn. cbn [Nat.min].
  destruct memories as [|m memories]; reflexivity.
Qed.

Lemma greeting_ignores_memories_after_the_third_witness :
  get_initial_greeting
    (client_with [memory_of (py "a"); memory_of (py "b"); memory_of (py "c");
                  [(py "memory", None)]])
    (Some (py "deshraj")) None None
  = get_initial_greeting
      (client_with [memory_of (py "a"); memory_of (py "b"); memory_of (py "c")])
      (Some (py "deshraj")) None None.
Proof.
  apply (greeting_ignores_memories_after_the_third
           (client_with [memory_of (py "a"); memory_of (py "b");
                         memory_of (py "c"); [(py "memory", None)]])
           (client_with [memory_of (py "a"); memory_of (py "b");
                         memory_of (py "c")])
           (Some (py "deshraj")) None None
           [memory_of (py "a"); memory_of (py "b"); memory_of (py "c");
            [(py "memory", None)]]);
    reflexivity.
Defined.

(** X12. For memories whose texts are strings or [None], as the model has
    them, the greeting has at most 413 characters, whether the client
    raises, returns [None] or returns memories, however many and however
    long. *)
Theorem greeting_is_bounded
    (client : MemoryClient) (user_id agent_id run_id : option str) :
  length (get_initial_greeting client user_id agent_id run_id) <= 413.
Proof.
  unfold get_initial_greeting. cbv zeta.
  destruct (get_all client _ _) as [|[memories|]]; [cbn; lia| |cbn; lia].
  destruct (length memories =? 0); cbn [orb]; [cbn; lia|].
  destruct (0 <? length memories); [|cbn; lia].
  destruct (remember (firstn 3 memories) _) as [r|] eqn:E; [|cbn; lia].
  apply remember_length in E. rewrite length_firstn in E.
  rewrite length_app in *. cbn [py length map list_ascii_of_string] in *. lia.
Qed.

(** X13. On every path, a client that raises included, the greeting opens
    with "Hello!" and closes with "How can I help you today?". *)
Theorem greeting_opens_and_closes_the_same_way
    (client : MemoryClient) (user_id agent_id run_id : option str) :
  exists middle,
    get_initial_greeting client user_id agent_id run_id
    = py "Hello!" ++ middle ++ py "How can I help you today?".
Proof.
  unfold get_initial_greeting. cbv zeta.
  destruct (get_all client _ _) as [|[memories|]].
  - now exists (py " ").
  - destruct memories as [|m memories];
      [now exists (py " It's nice to meet you. ")|].
    cbn [length Nat.eqb orb Nat.ltb Nat.leb].
    change (0 <? S (length memories)) with true. cbv iota.
    destruct (remember _ _) as [r|] eqn:E; [|now exists (py " ")].
    apply remember_prefix in E as [tail ->].
    exists (py " It's great to see you again. "
              ++ py "Based on our previous conversations, I remember: "
              ++ tail).
    now rewrite <- !app_assoc.
  - now exists (py " It's nice to meet you. ").
Qed.

(** X14. A memory among the first three whose text is [None] makes the
    whole greeting fall back to the plain one: what was built before it is
    dropped. *)
Theorem greeting_falls_back_on_a_memory_without_text
    (client : MemoryClient) (user_id agent_id run_id : option str)
    (memories : list dict) (m : dict) :
  get_all client (filters_for user_id agent_id run_id) (py "v2")
    = GetAllReturns (Some memories) ->
  In m (firstn 3 memories) ->
  content_of m = None ->
  get_initial_greeting client user_id agent_id run_id = GREETING_FALLBACK.
Proof.
  intros Hget Hin Hm. unfold get_initial_greeting. cbv zeta. rewrite Hget.
  assert (Hne : memories <> []) by (intros ->; contradiction).
  destruct (nonempty_length _ _ Hne) as [-> ->]. cbn [orb].
  now rewrite (remember_none _ _ Hin Hm _).
Qed.

Lemma greeting_falls_back_on_a_memory_without_text_witness :
  get_initial_greeting
    (client_with [memory_of (py "likes tea"); [(py "memory", None)]])
    (Some (py "deshraj")) None None
  = GREETING_FALLBACK.
Proof.
  apply (greeting_falls_back_on_a_memory_without_text
           (client_with [memory_of (py "likes tea"); [(py "memory", None)]])
           (Some (py "deshraj")) None None
           [memory_of (py "likes tea"); [(py "memory", None)]]
           [(py "memory", None)]).
  - reflexivity.
  - right. left. reflexivity.
  - reflexivity.
Defined.

(** X15. A memory text is quoted in at most 100 characters and always from
    its start: a text of at most 100 characters is quoted whole, a text of
    more than 100 characters as its first 97 characters followed by three
    dots. *)
Theorem quoted_keeps_the_start_within_100_characters (c : str) :
  length (quoted c) = Nat.min (length c) 100
  /\ firstn 97 (quoted c) = firstn 97 c
  /\ ((length c <= 100 /\ quoted c = c)
      \/ (100 < length c /\ quoted c = firstn 97 c ++ py "...")).
Proof.
  split; [apply quoted_length|]. split; [|apply quoted_cases].
  destruct (quoted_cases c) as [[H ->]|[H ->]]; [reflexivity|].
  rewrite firstn_app, firstn_firstn, length_firstn.
  replace (97 - Nat.min 97 (length c)) with 0 by lia.
  cbn [firstn]. rewrite app_nil_r. now rewrite Nat.min_id.
Qed.

(** X16. The filter sent to the client is the empty dict exactly when no id
    is given; otherwise it has the single key ["AND"], and its clauses are
    those of the ids given, each under its own name and with its own value,
    in the order [user_id], [agent_id], [run_id]: an ["AND"] over no clause
    is never sent. *)
Theorem filters_have_a_clause_for_each_id_given
    (user_id agent_id run_id : option str) :
  (filters_for user_id agent_id run_id = []
   <-> user_id = None /\ agent_id = None /\ run_id = None)
  /\ (forall key clauses,
        In (key, clauses) (filters_for user_id agent_id run_id) ->
        key = py "AND"
        /\ clauses <> []
        /\ clauses = clause_for (py "user_id") user_id
                       ++ clause_for (py "agent_id") agent_id
                       ++ clause_for (py "run_id") run_id
        /\ filters_for user_id agent_id run_id = [(key, clauses)]).
Proof.
  destruct user_id as [u|], agent_id as [a|], run_id as [r|]; split;
    try (split; [discriminate | intros (?&?&?); discriminate]);
    try (split; auto; fail);
    intros key clauses H; cbn in H; try contradiction;
    destruct H as [[= <- <-]|[]]; repeat split; discriminate.
Qed.
